(** * The simulation core of [src/snake.js]

    A shallow embedding of the game state, food placement, the simulation
    step and the fixed-timestep scheduler, followed by the properties the
    specification states about them.

    Conventions of the embedding:
    - grid coordinates, the score and the grid size are JavaScript numbers
      that only ever hold integers: they are [Z];
    - timestamps and the accumulator are JavaScript numbers holding
      fractions of milliseconds and seconds: they are exact rationals [Q],
      and nothing is stated about exact remainders or exact tick counts,
      which the rounding of the code changes;
    - [Math.random()] is an arbitrary sequence of draws [random : nat -> Q];
      the state records how many draws have been consumed ([rpos]);
    - [performance.now()] is an argument of the two operations that read it;
    - logging and [requestAnimationFrame] are effects of the host and are
      not part of the state; [draw] is the list of the calls it makes on the
      2D context;
    - the keyboard and touch handlers take what they read of the event (the
      key, the touch position, [Date.now()]) as arguments;
    - a call either returns ([Done]), throws ([Raise]) or is still running
      when the fuel is spent ([Fuel]). *)

From Stdlib Require Import ZArith QArith Qround Qabs Qminmax Lia Lqa List Ascii.
From stdpp Require Import base decidable option list sets gmap strings pretty.

Local Open Scope Z_scope.

(** ** Outcomes of a call *)

Inductive outcome (A : Type) : Type :=
| Done (a : A)
| Raise
| Fuel.
Arguments Done {A} a.
Arguments Raise {A}.
Arguments Fuel {A}.

Global Instance outcome_ret : MRet outcome := fun A a => Done a.

Global Instance outcome_bind : MBind outcome := fun A B k m =>
  match m with
  | Done a => k a
  | Raise => Raise
  | Fuel => Fuel
  end.

(** ** Data *)

(** A grid position or a direction: the object literals [{x, y}]. *)
Record Cell : Type := mkCell { cx : Z; cy : Z }.

Global Instance Cell_eq_dec : EqDecision Cell.
Proof. solve_decision. Defined.

(** [a.x === b.x && a.y === b.y] *)
Definition same_cell (a b : Cell) : bool := (cx a =? cx b) && (cy a =? cy b).

(** The module-level variables of the game, and [rpos], the number of
    [Math.random()] calls made so far. *)
Record State : Type := mkState {
  snake : list Cell;
  dir : Cell;
  nextDir : Cell;
  food : option Cell;
  score : Z;
  running : bool;
  paused : bool;
  gameOver : bool;
  accumulator : Q;
  lastTime : Q;
  rpos : nat
}.

Definition set_snake (v : list Cell) (s : State) : State :=
  mkState v (dir s) (nextDir s) (food s) (score s) (running s) (paused s)
          (gameOver s) (accumulator s) (lastTime s) (rpos s).
Definition set_dir (v : Cell) (s : State) : State :=
  mkState (snake s) v (nextDir s) (food s) (score s) (running s) (paused s)
          (gameOver s) (accumulator s) (lastTime s) (rpos s).
Definition set_nextDir (v : Cell) (s : State) : State :=
  mkState (snake s) (dir s) v (food s) (score s) (running s) (paused s)
          (gameOver s) (accumulator s) (lastTime s) (rpos s).
Definition set_food (v : option Cell) (s : State) : State :=
  mkState (snake s) (dir s) (nextDir s) v (score s) (running s) (paused s)
          (gameOver s) (accumulator s) (lastTime s) (rpos s).
Definition set_score (v : Z) (s : State) : State :=
  mkState (snake s) (dir s) (nextDir s) (food s) v (running s) (paused s)
          (gameOver s) (accumulator s) (lastTime s) (rpos s).
Definition set_running (v : bool) (s : State) : State :=
  mkState (snake s) (dir s) (nextDir s) (food s) (score s) v (paused s)
          (gameOver s) (accumulator s) (lastTime s) (rpos s).
Definition set_paused (v : bool) (s : State) : State :=
  mkState (snake s) (dir s) (nextDir s) (food s) (score s) (running s) v
          (gameOver s) (accumulator s) (lastTime s) (rpos s).
Definition set_gameOver (v : bool) (s : State) : State :=
  mkState (snake s) (dir s) (nextDir s) (food s) (score s) (running s) (paused s)
          v (accumulator s) (lastTime s) (rpos s).
Definition set_accumulator (v : Q) (s : State) : State :=
  mkState (snake s) (dir s) (nextDir s) (food s) (score s) (running s) (paused s)
          (gameOver s) v (lastTime s) (rpos s).
Definition set_lastTime (v : Q) (s : State) : State :=
  mkState (snake s) (dir s) (nextDir s) (food s) (score s) (running s) (paused s)
          (gameOver s) (accumulator s) v (rpos s).
Definition set_rpos (v : nat) (s : State) : State :=
  mkState (snake s) (dir s) (nextDir s) (food s) (score s) (running s) (paused s)
          (gameOver s) (accumulator s) (lastTime s) v.

(** The values the module-level [let]s are initialised with. *)
Definition state0 : State :=
  mkState [] (mkCell 1 0) (mkCell 1 0) None 0 false false false 0%Q 0%Q 0%nat.

(** [const SPEED = 8], and [const step = 1 / SPEED] of [gameLoop]. *)
Definition SPEED : Q := 8%Q.
Definition step : Q := (1 / SPEED)%Q.

(** The key [`${s.x},${s.y}`] under which a cell is stored in the set
    [occupied]. *)
Definition key (c : Cell) : string := pretty (cx c) +:+ "," +:+ pretty (cy c).

(** The object literal [map] of [setDirection].  The handlers only pass the
    four keys it defines; the keys [Object.prototype] would supply are not
    modelled. *)
Definition dir_map : gmap string Cell :=
  <["up" := mkCell 0 (-1)]> (<["down" := mkCell 0 1]>
    (<["left" := mkCell (-1) 0]> (<["right" := mkCell 1 0]> ∅))).

(** ** Operations *)

(** What the page and the engine supply: the grid size, computed once from
    the canvas ([COLS], [ROWS]), and the draws of [Math.random()]. *)
Class Host : Type := mkHost {
  COLS : Z;
  ROWS : Z;
  random : nat -> Q
}.

Section Game.

Context {host : Host}.

(** The cell sampled by one round of the loop of [placeFood] from the draws
    [p] and [p + 1]. *)
Definition sample_cell (p : nat) : Cell :=
  mkCell (Qfloor (random p * inject_Z COLS)) (Qfloor (random (S p) * inject_Z ROWS)).

(** The [do ... while (occupied.has(...))] loop of [placeFood]. *)
Fixpoint sample (fuel : nat) (occupied : gset string) (p : nat) : outcome (Cell * nat) :=
  match fuel with
  | O => Fuel
  | S fuel' =>
      let c := sample_cell p in
      if bool_decide (key c ∈ occupied)
      then sample fuel' occupied (S (S p))
      else Done (c, S (S p))
  end.

Definition placeFood (fuel : nat) (s : State) : outcome State :=
  let occupied : gset string := list_to_set (map key (snake s)) in
  r ← sample fuel occupied (rpos s);
  Done (set_food (Some (fst r)) (set_rpos (snd r) s)).

Definition initGame (fuel : nat) (now : Q) (s : State) : outcome State :=
  let s := set_snake [ mkCell (COLS / 2 - 1) (ROWS / 2);
                       mkCell (COLS / 2 - 2) (ROWS / 2);
                       mkCell (COLS / 2 - 3) (ROWS / 2) ] s in
  let s := set_dir (mkCell 1 0) s in
  let s := set_nextDir (dir s) s in
  let s := set_score 0 s in
  let s := set_paused false s in
  let s := set_gameOver false s in
  s ← placeFood fuel s;
  let s := set_running true s in
  let s := set_accumulator 0%Q s in
  let s := set_lastTime now s in
  Done s.

Definition restartGame (fuel : nat) (now : Q) (s : State) : outcome State :=
  initGame fuel now s.

Definition togglePause (now : Q) (s : State) : State :=
  if gameOver s then s else
  let s := set_paused (negb (paused s)) s in
  if negb (paused s) then set_lastTime now s else s.

Definition setDirection (action : string) (s : State) : State :=
  match dir_map !! action with
  | None => s
  | Some nd =>
      if (cx nd =? - cx (dir s)) && (cy nd =? - cy (dir s)) then s
      else set_nextDir nd s
  end.

Definition update (fuel : nat) (s : State) : outcome State :=
  if negb (running s) || paused s || gameOver s then Done s else
  let s := set_dir (nextDir s) s in
  match snake s with
  | [] => Raise
  | head :: _ =>
      let newHead := mkCell (cx head + cx (dir s)) (cy head + cy (dir s)) in
      if (cx newHead <? 0) || (cx newHead >=? COLS)
         || (cy newHead <? 0) || (cy newHead >=? ROWS)
      then Done (set_running false (set_gameOver true s))
      else if existsb (fun segment => same_cell segment newHead) (snake s)
      then Done (set_running false (set_gameOver true s))
      else
        let s := set_snake (newHead :: snake s) s in
        match food s with
        | Some f =>
            if same_cell newHead f
            then placeFood fuel (set_score (score s + 1) s)
            else Done (set_snake (removelast (snake s)) s)
        | None => Done (set_snake (removelast (snake s)) s)
        end
  end.

(** The [while (accumulator >= step)] loop of [gameLoop]; the number
    returned with the state counts the calls of [update]. *)
Fixpoint drain (fuel : nat) (s : State) : outcome (State * nat) :=
  if Qle_bool step (accumulator s) then
    match fuel with
    | O => Fuel
    | S fuel' =>
        s1 ← update fuel' s;
        r ← drain fuel' (set_accumulator (accumulator s1 - step)%Q s1);
        Done (fst r, S (snd r))
    end
  else Done (s, O).

Definition gameLoop (fuel : nat) (time : Q) (s : State) : outcome (State * nat) :=
  if negb (running s) then Done (s, O) else
  if paused s then Done (s, O) else
  let dt := ((time - lastTime s) / 1000)%Q in
  let s := set_lastTime time s in
  let s := set_accumulator (accumulator s + dt)%Q s in
  drain fuel s.

End Game.

(** ** The input handlers *)

(** What [handleKeyDown] binds a key to: the action, and whether it calls
    [e.preventDefault()]. *)
Definition key_binding (k : string) : option (string * bool) :=
  if bool_decide (k ∈ ["ArrowUp"; "w"; "W"]) then Some ("up", true)
  else if bool_decide (k ∈ ["ArrowDown"; "s"; "S"]) then Some ("down", true)
  else if bool_decide (k ∈ ["ArrowLeft"; "a"; "A"]) then Some ("left", true)
  else if bool_decide (k ∈ ["ArrowRight"; "d"; "D"]) then Some ("right", true)
  else if String.eqb k " " || String.eqb k "Spacebar" then Some ("pause", true)
  else if String.eqb k "Enter" then Some ("restart", false)
  else None.

Section Handlers.

Context {host : Host}.

(** [handleKeyDown(e)] with [e.key = k]; the boolean returned with the state
    tells whether the default action of the event was prevented. *)
Definition handleKeyDown (fuel : nat) (now : Q) (k : string) (s : State)
  : outcome (State * bool) :=
  match key_binding k with
  | None => Done (s, false)
  | Some (action, prevented) =>
      if String.eqb action "pause" then Done (togglePause now s, prevented)
      else if String.eqb action "restart" then
        s' ← restartGame fuel now s; Done (s', prevented)
      else Done (setDirection action s, prevented)
  end.

End Handlers.

(** The object [{ x, y, time }] the [touchstart] listener stores. *)
Record Touch : Type := mkTouch { touch_x : Q; touch_y : Q; touch_time : Z }.

(** The page: the variable [touchStart] and the game. *)
Record Page : Type := mkPage { touchStart : option Touch; game : State }.

(** [a < b] on the rationals, as a boolean. *)
Definition Qltb (a b : Q) : bool := negb (Qle_bool b a).

(** The swipe the [touchend] listener reads off a displacement. *)
Definition swipe (dx dy : Q) : string :=
  if Qltb (Qabs dy) (Qabs dx)
  then (if Qltb 0 dx then "right" else "left")
  else (if Qltb 0 dy then "down" else "up").

(** The [touchstart] listener, for a touch at [(x, y)] at [Date.now() = now_ms]. *)
Definition touchstart (x y : Q) (now_ms : Z) (p : Page) : Page :=
  mkPage (Some (mkTouch x y now_ms)) (game p).

(** The [touchend] listener, for a touch lifted at [(x, y)] at
    [Date.now() = now_ms]. *)
Definition touchend (x y : Q) (now_ms : Z) (p : Page) : Page :=
  match touchStart p with
  | None => p
  | Some t0 =>
      let dx := (x - touch_x t0)%Q in
      let dy := (y - touch_y t0)%Q in
      let absX := Qabs dx in
      let absY := Qabs dy in
      let elapsed := now_ms - touch_time t0 in
      let g := if (elapsed <? 1000) && Qltb 30 (Qmax absX absY)
               then setDirection (swipe dx dy) (game p)
               else game p in
      mkPage None g
  end.

(** ** The grid of a canvas, and drawing *)

(** [const CELL = 20] *)
Definition CELL : Z := 20.

(** The host of a canvas of [width] by [height] pixels:
    [COLS = Math.floor(canvas.width / CELL)], and [ROWS] likewise. *)
Definition canvas_host (width height : Z) (draws : nat -> Q) : Host :=
  mkHost (width / CELL) (height / CELL) draws.

(** The calls [draw] makes on the 2D context: assignments to [fillStyle],
    [font] and [textBaseline], and the three drawing methods. *)
Inductive Paint : Type :=
| clearRect (x y w h : Z)
| fillStyle (style : string)
| fillRect (x y w h : Z)
| font (f : string)
| textBaseline (b : string)
| fillText (text : string) (x y : Q).

(** [ctx.fillRect(c.x * CELL + 1, c.y * CELL + 1, CELL - 2, CELL - 2)] *)
Definition cell_square (c : Cell) : Paint :=
  fillRect (cx c * CELL + 1) (cy c * CELL + 1) (CELL - 2) (CELL - 2).

(** The loop of [draw] over the snake, from index [i] on. *)
Fixpoint draw_snake (i : nat) (l : list Cell) : list Paint :=
  match l with
  | [] => []
  | s :: l' =>
      fillStyle (if Nat.eqb i 0 then "#10b981" else "#34d399")
      :: cell_square s :: draw_snake (S i) l'
  end.

(** [draw()] on a canvas of [width] by [height] pixels. *)
Definition draw (width height : Z) (s : State) : list Paint :=
  [ clearRect 0 0 width height;
    fillStyle "#081325";
    fillRect 0 0 width height ]
  ++ match food s with
     | Some f => [ fillStyle "#ef4444"; cell_square f ]
     | None => []
     end
  ++ draw_snake 0 (snake s)
  ++ [ fillStyle "rgba(255,255,255,0.9)";
       font "16px system-ui, Arial";
       textBaseline "top";
       fillText ("Score: " +:+ pretty (score s)) 8 8 ]
  ++ (if paused s
      then [ fillStyle "rgba(255,255,255,0.85)";
             font "24px system-ui, Arial";
             fillText "Paused" (inject_Z width / 2 - 36) (inject_Z height / 2 - 12) ]
      else [])
  ++ (if gameOver s
      then [ fillStyle "rgba(255,255,255,0.95)";
             font "28px system-ui, Arial";
             fillText "Game Over" (inject_Z width / 2 - 72) (inject_Z height / 2 - 14);
             font "16px system-ui, Arial";
             fillText "Press Enter to restart"
                      (inject_Z width / 2 - 84) (inject_Z height / 2 + 18) ]
      else []).

(** The rectangles a list of calls fills, in order. *)
Fixpoint filled (l : list Paint) : list (Z * Z * Z * Z) :=
  match l with
  | [] => []
  | fillRect x y w h :: l' => (x, y, w, h) :: filled l'
  | _ :: l' => filled l'
  end.

(** The rectangle lies on a canvas of [width] by [height] pixels. *)
Definition on_canvas (width height : Z) (r : Z * Z * Z * Z) : Prop :=
  let '(x, y, w, h) := r in
  0 <= x /\ 0 <= y /\ x + w <= width /\ y + h <= height.

(** Two rectangles with no pixel in common. *)
Definition disjoint_rects (r1 r2 : Z * Z * Z * Z) : Prop :=
  let '(x1, y1, w1, h1) := r1 in
  let '(x2, y2, w2, h2) := r2 in
  x1 + w1 <= x2 \/ x2 + w2 <= x1 \/ y1 + h1 <= y2 \/ y2 + h2 <= y1.

(** The texts a list of calls writes, in order. *)
Fixpoint written (l : list Paint) : list string :=
  match l with
  | [] => []
  | fillText text _ _ :: l' => text :: written l'
  | _ :: l' => written l'
  end.

(** * The vocabulary of the properties *)

(** [{ x: head.x + dir.x, y: head.y + dir.y }] *)
Definition move (head d : Cell) : Cell :=
  mkCell (cx head + cx d) (cy head + cy d).

(** The state in which [update] declares the game over. *)
Definition crashed (s : State) : State :=
  set_running false (set_gameOver true (set_dir (nextDir s) s)).

(** The state in which [update] calls [placeFood] after eating. *)
Definition grown (newHead : Cell) (s : State) : State :=
  let s := set_dir (nextDir s) s in
  let s := set_snake (newHead :: snake s) s in
  set_score (score s + 1) s.

(** The state [update] leaves after a move without food. *)
Definition moved (newHead : Cell) (s : State) : State :=
  let s := set_dir (nextDir s) s in
  set_snake (removelast (newHead :: snake s)) s.

(** The snake does not overlap itself and has three segments more than the
    score. *)
Definition well_formed (s : State) : Prop :=
  NoDup (snake s) /\ Z.of_nat (length (snake s)) = score s + 3.

(** Ticks as a rational number, to count the time they consume. *)
Definition ticks (n : nat) : Q := inject_Z (Z.of_nat n).

(** No character of the string is a comma. *)
Fixpoint comma_free (s : string) : Prop :=
  match s with
  | EmptyString => True
  | String a s' => a <> ","%char /\ comma_free s'
  end.

Section Vocabulary.

Context {host : Host}.

(** The cells of [[0,COLS) x [0,ROWS)]. *)
Definition in_grid (c : Cell) : Prop :=
  0 <= cx c < COLS /\ 0 <= cy c < ROWS.

(** The contract of [Math.random()]: every draw is in [[0,1)]. *)
Definition unit_draws : Prop := forall n, (0 <= random n < 1)%Q.

(** The draws are fair from position [p] on when the rounds of the sampling
    loop that start there keep producing every cell of the grid. *)
Definition fair_draws (p : nat) : Prop :=
  forall c : Cell, in_grid c ->
  forall j : nat, exists k : nat, (j <= k)%nat /\ sample_cell (p + 2 * k) = c.

(** The cell with index [i] when the grid is numbered row by row. *)
Definition nth_cell (i : Z) : Cell := mkCell (i mod COLS) (i / COLS).

(** A tick is idle when the game is not running, is paused or is over. *)
Definition idle (s : State) : bool := negb (running s) || paused s || gameOver s.

(** The four ways a tick can return. *)
Inductive tick (fuel : nat) (s : State) : State -> Prop :=
| tick_idle : idle s = true -> tick fuel s s
| tick_crash h t :
    idle s = false -> snake s = h :: t ->
    ~ in_grid (move h (nextDir s)) \/ move h (nextDir s) ∈ snake s ->
    tick fuel s (crashed s)
| tick_eat h t s' :
    idle s = false -> snake s = h :: t ->
    in_grid (move h (nextDir s)) -> move h (nextDir s) ∉ snake s ->
    food s = Some (move h (nextDir s)) ->
    placeFood fuel (grown (move h (nextDir s)) s) = Done s' ->
    tick fuel s s'
| tick_move h t :
    idle s = false -> snake s = h :: t ->
    in_grid (move h (nextDir s)) -> move h (nextDir s) ∉ snake s ->
    food s <> Some (move h (nextDir s)) ->
    tick fuel s (moved (move h (nextDir s)) s).

(** The states the game can be in: those [initGame] produces at page load,
    and those any of the operations produces from such a state.  The frames
    are restricted to the timestamps [frame_ok] admits in the state they
    arrive in. *)
Inductive reachable_if (frame_ok : State -> Q -> Prop) : State -> Prop :=
| reach_initGame fuel now s :
    initGame fuel now state0 = Done s -> reachable_if frame_ok s
| reach_update fuel s s' :
    reachable_if frame_ok s -> update fuel s = Done s' -> reachable_if frame_ok s'
| reach_setDirection action s :
    reachable_if frame_ok s -> reachable_if frame_ok (setDirection action s)
| reach_togglePause now s :
    reachable_if frame_ok s -> reachable_if frame_ok (togglePause now s)
| reach_restartGame fuel now s s' :
    reachable_if frame_ok s -> restartGame fuel now s = Done s' ->
    reachable_if frame_ok s'
| reach_placeFood fuel s s' :
    reachable_if frame_ok s -> placeFood fuel s = Done s' -> reachable_if frame_ok s'
| reach_gameLoop fuel time s s' n :
    reachable_if frame_ok s -> frame_ok s time ->
    gameLoop fuel time s = Done (s', n) -> reachable_if frame_ok s'.

(** Reachable with any timestamps. *)
Definition reachable : State -> Prop := reachable_if (fun _ _ => True).

(** Reachable with timestamps that do not go back behind [lastTime]. *)
Definition reachable_forward : State -> Prop :=
  reachable_if (fun s time => (lastTime s <= time)%Q).

(** The state a frame runs the loop in: the clock advanced to [time]. *)
Definition advance (time : Q) (s : State) : State :=
  set_accumulator (accumulator s + (time - lastTime s) / 1000)%Q
                  (set_lastTime time s).

End Vocabulary.

(** The direction intents [actions], applied in the order they arrive. *)
Definition intents (actions : list string) (s : State) : State :=
  foldl (fun st action => setDirection action st) s actions.

(** ** More vocabulary: the shape of the game *)

(** One of the four vectors of [setDirection]'s map. *)
Definition unit_vector (d : Cell) : Prop :=
  d = mkCell 0 (-1) \/ d = mkCell 0 1 \/ d = mkCell (-1) 0 \/ d = mkCell 1 0.

(** [nd.x === -dir.x && nd.y === -dir.y] *)
Definition opposite (nd d : Cell) : Prop := cx nd = - cx d /\ cy nd = - cy d.

(** Two cells that share a side. *)
Definition adjacent (a b : Cell) : Prop :=
  Z.abs (cx a - cx b) + Z.abs (cy a - cy b) = 1.

(** Every segment shares a side with the next one. *)
Definition linked (l : list Cell) : Prop :=
  forall (i : nat) (a b : Cell), l !! i = Some a -> l !! S i = Some b -> adjacent a b.

(** The head is where the current direction took it from the neck. *)
Definition heading (d : Cell) (l : list Cell) : Prop :=
  match l with
  | h :: n :: _ => h = move n d
  | _ => True
  end.

(** What every state of a game has in common. *)
Record game_inv (s : State) : Prop := mkInv {
  inv_dir : unit_vector (dir s);
  inv_nextDir : unit_vector (nextDir s);
  inv_no_reverse : ~ opposite (nextDir s) (dir s);
  inv_linked : linked (snake s);
  inv_heading : gameOver s = false -> heading (dir s) (snake s);
  inv_running : running s = negb (gameOver s);
  inv_paused : gameOver s = true -> paused s = false;
  inv_food : exists c : Cell, food s = Some c /\ c ∉ snake s;
  inv_score : 0 <= score s;
  inv_rpos : exists m : nat, rpos s = (2 * m)%nat
}.

(** * Hosts and states to run the game on *)

(** Draws that make the sampling loop scan a [w] by [h] grid row by row,
    over and over, starting at the cell with index [start]. *)
Definition scan (w h : positive) (start : nat) (n : nat) : Q :=
  let i := Z.of_nat (start + n / 2) in
  if Nat.even n then (i mod Z.pos w) # w else ((i / Z.pos w) mod Z.pos h) # h.

Definition scan_host (w h : positive) (start : nat) : Host :=
  mkHost (Z.pos w) (Z.pos h) (scan w h start).

(** A six by six grid whose draws scan the grid from the cell (3,3) on. *)
Definition demo : Host := scan_host 6 6 21.

(** The game [initGame] starts on [demo] at time 1000. *)
Definition demo_init : State :=
  mkState [mkCell 2 3; mkCell 1 3; mkCell 0 3] (mkCell 1 0) (mkCell 1 0)
          (Some (mkCell 3 3)) 0 true false false 0%Q 1000%Q 2%nat.

(** The state after the frame at time 1130: one tick, which ate the food. *)
Definition demo_fed : State :=
  Eval vm_compute in
    match @gameLoop demo 10 1130%Q demo_init with
    | Done r => fst r
    | _ => demo_init
    end.

(** The state [placeFood] leaves when called on [demo_init]. *)
Definition demo_placed : State :=
  Eval vm_compute in
    match @placeFood demo 1 demo_init with
    | Done s => s
    | _ => demo_init
    end.

(** The state the frame with timestamp 0 leaves when it arrives in
    [demo_init], whose [lastTime] is 1000. *)
Definition demo_back : State :=
  Eval vm_compute in
    match @gameLoop demo 0 0%Q demo_init with
    | Done r => fst r
    | _ => demo_init
    end.

(** A snake about to leave the grid on the left. *)
Definition demo_wall : State :=
  mkState [mkCell 0 5; mkCell 1 5; mkCell 2 5] (mkCell (-1) 0) (mkCell (-1) 0)
          (Some (mkCell 3 3)) 0 true false false 0%Q 1000%Q 2%nat.

(** A snake of four segments about to step onto its own tail. *)
Definition demo_loop : State :=
  mkState [mkCell 2 2; mkCell 3 2; mkCell 3 3; mkCell 2 3] (mkCell (-1) 0) (mkCell 0 1)
          (Some (mkCell 0 0)) 1 true false false 0%Q 1000%Q 4%nat.







(** The state after a single frame at time 1500 arrives in [demo_init]: three
    ticks eat, the fourth runs into the right wall. *)
Definition demo_over : State :=
  Eval vm_compute in
    match @gameLoop demo 10 1500%Q demo_init with
    | Done r => fst r
    | _ => demo_init
    end.

(** The game a restart at time 5000 starts from [demo_over]. *)
Definition demo_restarted : State :=
  Eval vm_compute in
    match @restartGame demo 1 5000%Q demo_over with
    | Done s => s
    | _ => demo_over
    end.

(** [demo_init] with a turn downwards queued. *)
Definition demo_turn : State :=
  Eval vm_compute in setDirection "down" demo_init.

(** A snake of five segments about to step onto its fourth. *)
Definition demo_knot : State :=
  mkState [mkCell 2 2; mkCell 3 2; mkCell 3 3; mkCell 2 3; mkCell 1 3]
          (mkCell (-1) 0) (mkCell 0 1)
          (Some (mkCell 0 0)) 2 true false false 0%Q 1000%Q 6%nat.

(** A page with a touch pending since time 100 at (50, 80). *)
Definition demo_page : Page :=
  mkPage (Some (mkTouch 50 80 100)) demo_init.

(** The game [initGame] starts on a canvas of 100 by 100 pixels, whose grid
    has five columns: the last segment is at column -1. *)
Definition demo_narrow : State :=
  Eval vm_compute in
    match @initGame (canvas_host 100 100 (scan 5 5 0)) 1 0%Q state0 with
    | Done s => s
    | _ => state0
    end.

(** * Facts about the operations *)

Example key_ex : key (mkCell (-13) 15) = "-13,15".
Proof. reflexivity. Qed.


(** ** The keys of [occupied] identify cells *)

Lemma pretty_N_char_comma (x : N) : pretty_N_char x <> ","%char.
Proof. unfold pretty_N_char. repeat case_match; discriminate. Qed.

Lemma pretty_N_go_comma_free (x : N) (s : string) :
  comma_free s -> comma_free (pretty_N_go x s).
Proof.
  revert s. induction (N.lt_wf_0 x) as [x _ IH]. intros s Hs.
  destruct (decide (x = 0%N)) as [->|Hx].
  - by rewrite pretty_N_go_0.
  - rewrite pretty_N_go_step by lia. apply IH.
    + apply N.div_lt; lia.
    + split; [apply pretty_N_char_comma | exact Hs].
Qed.

Lemma pretty_N_comma_free (x : N) : comma_free (pretty x).
Proof.
  unfold pretty, pretty_N. case_decide; simpl.
  - split; [discriminate | exact I].
  - by apply pretty_N_go_comma_free.
Qed.

Lemma pretty_Z_comma_free (z : Z) : comma_free (pretty z).
Proof.
  destruct z as [|q|q]; unfold pretty, pretty_Z.
  - split; [discriminate | exact I].
  - apply pretty_N_comma_free.
  - split; [discriminate | apply pretty_N_comma_free].
Qed.

(** Two comma-free prefixes followed by a comma split a string the same
    way. *)
Lemma comma_split (a a' b b' : string) :
  comma_free a -> comma_free a' ->
  a +:+ "," +:+ b = a' +:+ "," +:+ b' -> a = a' /\ b = b'.
Proof.
  revert a'. induction a as [|c a IH]; intros [|c' a'] Ha Ha' E; simpl in *.
  - by injection E.
  - injection E as E1 E2. destruct Ha' as [Hc _]. by destruct Hc.
  - injection E as E1 E2. destruct Ha as [Hc _]. by destruct Hc.
  - injection E as E1 E2. subst c'.
    destruct (IH a' (proj2 Ha) (proj2 Ha') E2) as [-> ->]. done.
Qed.

Lemma key_inj (c d : Cell) : key c = key d -> c = d.
Proof.
  destruct c as [x1 y1], d as [x2 y2]. unfold key; simpl. intros E.
  apply comma_split in E as [Ex Ey]; try apply pretty_Z_comma_free.
  apply (inj pretty) in Ex. apply (inj pretty) in Ey. by subst.
Qed.

(** [occupied.has(key c)] holds exactly of the cells of the snake. *)
Lemma occupied_spec (c : Cell) (l : list Cell) :
  key c ∈ (list_to_set (map key l) : gset string) <-> c ∈ l.
Proof.
  rewrite elem_of_list_to_set, list_elem_of_fmap. split.
  - intros (d & E & Hd). apply key_inj in E. by subst.
  - intros Hc. by exists c.
Qed.

(** ** Food placement *)

Section PlaceFood.

Context {host : Host}.

Lemma floor_scaled (r : Q) (n : Z) :
  (0 <= r < 1)%Q -> 0 < n -> 0 <= Qfloor (r * inject_Z n) < n.
Proof.
  intros [Hr0 Hr1] Hn.
  assert (Hq : (0 < inject_Z n)%Q).
  { change 0%Q with (inject_Z 0). by rewrite <- Zlt_Qlt. }
  split.
  - change 0 with (Qfloor 0). apply Qfloor_resp_le. nra.
  - rewrite Zlt_Qlt.
    apply Qle_lt_trans with (r * inject_Z n)%Q; [apply Qfloor_le | nra].
Qed.

Lemma sample_cell_in_grid (p : nat) :
  unit_draws -> 0 < COLS -> 0 < ROWS -> in_grid (sample_cell p).
Proof.
  intros Hu HC HR. split; simpl; apply floor_scaled; auto.
Qed.

Lemma sample_S (fuel : nat) (occ : gset string) (p : nat) :
  sample (S fuel) occ p =
  if bool_decide (key (sample_cell p) ∈ occ)
  then sample fuel occ (S (S p))
  else Done (sample_cell p, S (S p)).
Proof. reflexivity. Qed.

Lemma sample_not_raise (fuel : nat) (occ : gset string) (p : nat) :
  sample fuel occ p <> Raise.
Proof.
  revert p. induction fuel as [|fuel IH]; intros p; [done|].
  rewrite sample_S. case_bool_decide; [apply IH | done].
Qed.

(** What a returning loop has done: [k] rejected rounds, then a cell whose
    key is not in the set. *)
Lemma sample_done (fuel : nat) (occ : gset string) (p : nat) (c : Cell) (p' : nat) :
  sample fuel occ p = Done (c, p') ->
  exists k : nat,
    c = sample_cell (p + 2 * k) /\ p' = (p + 2 * k + 2)%nat /\
    (key c ∉ occ) /\
    (forall j : nat, (j < k)%nat -> key (sample_cell (p + 2 * j)) ∈ occ).
Proof.
  revert p. induction fuel as [|fuel IH]; intros p; [done|].
  rewrite sample_S. case_bool_decide as Hocc.
  - intros E. destruct (IH _ E) as (k & Hc & Hp & Hfree & Hrej).
    exists (S k). split_and!.
    + rewrite Hc. f_equal. lia.
    + lia.
    + done.
    + intros [|j] Hj.
      * by replace (p + 2 * 0)%nat with p by lia.
      * replace (p + 2 * S j)%nat with (S (S p) + 2 * j)%nat by lia.
        apply Hrej. lia.
  - intros [= <- <-]. exists 0%nat. split_and!.
    + f_equal. lia.
    + lia.
    + done.
    + intros j Hj. lia.
Qed.

(** The loop returns once a round samples a cell whose key is not in the
    set. *)
Lemma sample_hit (k : nat) (occ : gset string) (p : nat) :
  key (sample_cell (p + 2 * k)) ∉ occ ->
  exists r, sample (S k) occ p = Done r.
Proof.
  revert p. induction k as [|k IH]; intros p Hfree; rewrite sample_S.
  - replace (p + 2 * 0)%nat with p in Hfree by lia.
    rewrite bool_decide_eq_false_2 by done. eauto.
  - case_bool_decide; [|eauto].
    apply IH. by replace (S (S p) + 2 * k)%nat with (p + 2 * S k)%nat by lia.
Qed.


(** More fuel does not change a result. *)
Lemma sample_mono (fuel fuel' : nat) (occ : gset string) (p : nat) r :
  sample fuel occ p = Done r -> (fuel <= fuel')%nat -> sample fuel' occ p = Done r.
Proof.
  revert fuel' p. induction fuel as [|fuel IH]; intros fuel' p; [done|].
  intros E Hle. destruct fuel' as [|fuel']; [lia|].
  rewrite sample_S in *. case_bool_decide; [|done]. apply IH; [done | lia].
Qed.

Lemma placeFood_not_raise (fuel : nat) (s : State) : placeFood fuel s <> Raise.
Proof.
  unfold placeFood. pose proof (sample_not_raise fuel (list_to_set (map key (snake s))) (rpos s)).
  destruct (sample _ _ _); simpl; done.
Qed.

Lemma placeFood_done (fuel : nat) (s s' : State) :
  placeFood fuel s = Done s' ->
  exists k : nat,
    s' = set_food (Some (sample_cell (rpos s + 2 * k))) (set_rpos (rpos s + 2 * k + 2) s)
    /\ (sample_cell (rpos s + 2 * k) ∉ snake s)
    /\ (forall j : nat, (j < k)%nat -> sample_cell (rpos s + 2 * j) ∈ snake s).
Proof.
  unfold placeFood. intros E.
  destruct (sample _ _ _) as [[c p']| |] eqn:Es; simpl in E; try done.
  injection E as <-.
  apply sample_done in Es as (k & -> & -> & Hfree & Hrej).
  exists k. split; [done|]. split.
  - by rewrite <- occupied_spec.
  - intros j Hj. rewrite <- occupied_spec. by apply Hrej.
Qed.

Lemma placeFood_hit (k : nat) (s : State) :
  sample_cell (rpos s + 2 * k) ∉ snake s ->
  exists s', placeFood (S k) s = Done s'.
Proof.
  intros Hfree. unfold placeFood.
  destruct (sample_hit k (list_to_set (map key (snake s))) (rpos s)) as [r ->].
  - by rewrite occupied_spec.
  - simpl. eauto.
Qed.


Lemma placeFood_mono (fuel fuel' : nat) (s s' : State) :
  placeFood fuel s = Done s' -> (fuel <= fuel')%nat -> placeFood fuel' s = Done s'.
Proof.
  unfold placeFood. intros E Hle.
  destruct (sample fuel _ _) as [r| |] eqn:Es; simpl in E; try done.
  by rewrite (sample_mono _ _ _ _ _ Es Hle).
Qed.

End PlaceFood.

(** ** The simulation step *)

Lemma same_cell_true (a b : Cell) : same_cell a b = true <-> a = b.
Proof.
  destruct a as [x1 y1], b as [x2 y2]. unfold same_cell; simpl.
  rewrite andb_true_iff, !Z.eqb_eq. split; [intros [-> ->]; done | intros [= -> ->]; done].
Qed.

Lemma self_test (c : Cell) (l : list Cell) :
  existsb (fun segment => same_cell segment c) l = true <-> c ∈ l.
Proof.
  rewrite existsb_exists. split.
  - intros (d & Hd & E). apply same_cell_true in E. subst d.
    by apply list_elem_of_In.
  - intros Hc. exists c. split; [by apply list_elem_of_In | by apply same_cell_true].
Qed.

Section Update.

Context {host : Host}.

Lemma wall_test (c : Cell) :
  (cx c <? 0) || (cx c >=? COLS) || (cy c <? 0) || (cy c >=? ROWS) = true
  <-> ~ in_grid c.
Proof.
  unfold in_grid. rewrite !orb_true_iff, !Z.ltb_lt, !Z.geb_le. lia.
Qed.

Lemma update_idle (fuel : nat) (s : State) : idle s = true -> update fuel s = Done s.
Proof. unfold idle, update. by intros ->. Qed.

Lemma update_empty (fuel : nat) (s : State) :
  idle s = false -> snake s = [] -> update fuel s = Raise.
Proof. unfold idle, update. intros -> E. simpl. by rewrite E. Qed.

Lemma update_crash (fuel : nat) (s : State) (h : Cell) (t : list Cell) :
  idle s = false -> snake s = h :: t ->
  ~ in_grid (move h (nextDir s)) \/ move h (nextDir s) ∈ snake s ->
  update fuel s = Done (crashed s).
Proof.
  unfold idle, update. intros -> E Hc. simpl. rewrite E.
  destruct ((_ <? 0) || _ || _ || _) eqn:Hw; [done|].
  destruct Hc as [Hc|Hc].
  - apply wall_test in Hc. unfold move in Hc; simpl in Hc. congruence.
  - rewrite <- E. apply self_test in Hc. unfold move in Hc. by rewrite Hc.
Qed.

Lemma update_eat (fuel : nat) (s : State) (h : Cell) (t : list Cell) :
  idle s = false -> snake s = h :: t ->
  in_grid (move h (nextDir s)) -> move h (nextDir s) ∉ snake s ->
  food s = Some (move h (nextDir s)) ->
  update fuel s = placeFood fuel (grown (move h (nextDir s)) s).
Proof.
  unfold idle, update. intros -> E Hg Hs Hf. simpl. rewrite E.
  destruct ((_ <? 0) || _ || _ || _) eqn:Hw.
  { apply (wall_test (move h (nextDir s))) in Hw. by destruct Hw. }
  rewrite <- E. fold (move h (nextDir s)).
  destruct (existsb _ _) eqn:Hx.
  { apply self_test in Hx. by destruct Hs. }
  rewrite Hf. rewrite (proj2 (same_cell_true _ _) eq_refl). done.
Qed.

Lemma update_move (fuel : nat) (s : State) (h : Cell) (t : list Cell) :
  idle s = false -> snake s = h :: t ->
  in_grid (move h (nextDir s)) -> move h (nextDir s) ∉ snake s ->
  food s <> Some (move h (nextDir s)) ->
  update fuel s = Done (moved (move h (nextDir s)) s).
Proof.
  unfold idle, update. intros -> E Hg Hs Hf. simpl. rewrite E.
  destruct ((_ <? 0) || _ || _ || _) eqn:Hw.
  { apply (wall_test (move h (nextDir s))) in Hw. by destruct Hw. }
  rewrite <- E. fold (move h (nextDir s)).
  destruct (existsb _ _) eqn:Hx.
  { apply self_test in Hx. by destruct Hs. }
  assert (Hm : set_snake (removelast (move h (nextDir s) :: h :: t))
                 (set_snake (move h (nextDir s) :: snake s) (set_dir (nextDir s) s))
               = moved (move h (nextDir s)) s).
  { unfold moved. simpl. by rewrite E. }
  destruct (food s) as [f|]; [|by rewrite <- Hm, E].
  destruct (same_cell _ f) eqn:Hsame; [|by rewrite <- Hm, E].
  apply same_cell_true in Hsame. by subst f.
Qed.

Lemma update_tick (fuel : nat) (s s' : State) :
  update fuel s = Done s' -> tick fuel s s'.
Proof.
  intros E. destruct (idle s) eqn:Hi.
  { rewrite update_idle in E by done. injection E as <-. by constructor. }
  destruct (snake s) as [|h t] eqn:Hsn.
  { by rewrite update_empty in E. }
  destruct (decide (in_grid (move h (nextDir s)))) as [Hg|Hg].
  2:{ rewrite (update_crash _ _ h t) in E by auto. injection E as <-.
      eapply tick_crash; eauto. }
  destruct (decide (move h (nextDir s) ∈ snake s)) as [Hs|Hs].
  { rewrite (update_crash _ _ h t) in E by auto. injection E as <-.
    eapply tick_crash; eauto. }
  destruct (decide (food s = Some (move h (nextDir s)))) as [Hf|Hf].
  - rewrite (update_eat _ _ h t) in E by auto. eapply tick_eat; eauto.
  - rewrite (update_move _ _ h t) in E by auto. injection E as <-.
    eapply tick_move; eauto.
Qed.

End Update.

(** ** Invariants of the game state *)

Lemma removelast_NoDup (l : list Cell) : NoDup l -> NoDup (removelast l).
Proof.
  rewrite removelast_firstn_len. intros Hl.
  exact (sublist_NoDup _ _ Hl (sublist_take _ _)).
Qed.

Lemma removelast_cons_length (a : Cell) (l : list Cell) :
  length (removelast (a :: l)) = length l.
Proof. rewrite removelast_firstn_len, length_take. simpl. lia. Qed.

Section Invariants.

Context {host : Host}.

Lemma placeFood_snake (fuel : nat) (s s' : State) :
  placeFood fuel s = Done s' ->
  snake s' = snake s /\ score s' = score s /\
  accumulator s' = accumulator s /\ lastTime s' = lastTime s.
Proof. intros E. apply placeFood_done in E as (k & -> & _). done. Qed.

Lemma tick_well_formed (fuel : nat) (s s' : State) :
  tick fuel s s' -> well_formed s -> well_formed s'.
Proof.
  intros T [Hnd Hlen]. destruct T as [ | h t _ _ _ | h t s' _ _ _ Hfree _ E | h t _ _ _ Hfree _ ].
  - done.
  - done.
  - apply placeFood_snake in E as (Es & Esc & _). unfold well_formed.
    rewrite Es, Esc. simpl. split.
    + by constructor.
    + lia.
  - unfold well_formed, moved. cbn [snake score set_snake set_dir]. split.
    + apply removelast_NoDup. by constructor.
    + rewrite removelast_cons_length. lia.
Qed.

Lemma tick_clock (fuel : nat) (s s' : State) :
  tick fuel s s' ->
  accumulator s' = accumulator s /\ lastTime s' = lastTime s.
Proof.
  intros T. destruct T as [ | | h t s' _ _ _ _ _ E | ]; try done.
  by apply placeFood_snake in E as (_ & _ & Ea & El).
Qed.

Lemma drain_0 (s : State) :
  drain 0 s = if Qle_bool step (accumulator s) then Fuel else Done (s, O).
Proof. reflexivity. Qed.

Lemma drain_S (fuel : nat) (s : State) :
  drain (S fuel) s =
  if Qle_bool step (accumulator s) then
    s1 ← update fuel s;
    r ← drain fuel (set_accumulator (accumulator s1 - step)%Q s1);
    Done (fst r, S (snd r))
  else Done (s, O).
Proof. reflexivity. Qed.

(** A returning loop, unrolled: either no tick was due, or one tick ran
    and the loop went on from the state it left. *)
Lemma drain_done (fuel : nat) (s s' : State) (n : nat) :
  drain fuel s = Done (s', n) ->
  (Qle_bool step (accumulator s) = false /\ s' = s /\ n = O) \/
  (exists fuel' s1 m,
     fuel = S fuel' /\ n = S m /\ Qle_bool step (accumulator s) = true /\
     update fuel' s = Done s1 /\
     drain fuel' (set_accumulator (accumulator s1 - step)%Q s1) = Done (s', m)).
Proof.
  destruct fuel as [|fuel]; [rewrite drain_0 | rewrite drain_S];
    destruct (Qle_bool step (accumulator s)) eqn:Hq; try done.
  - intros [= <- <-]. by left.
  - intros E. right.
    destruct (update fuel s) as [s1| |] eqn:Eu; try done. simpl in E.
    destruct (drain fuel _) as [[s2 m]| |] eqn:Ed; try done. simpl in E.
    injection E as <- <-. exists fuel, s1, m. done.
  - intros [= <- <-]. by left.
Qed.

Lemma drain_well_formed (fuel : nat) (s s' : State) (n : nat) :
  drain fuel s = Done (s', n) -> well_formed s -> well_formed s'.
Proof.
  revert s n. induction fuel as [|fuel IH]; intros s n E Hwf;
    apply drain_done in E as [(_ & -> & _)|(f & s1 & m & Hf & _ & _ & Eu & Ed)];
    try done.
  injection Hf as <-. apply (IH _ _ Ed).
  apply update_tick, tick_well_formed in Eu; auto.
Qed.

Lemma initGame_done (fuel : nat) (now : Q) (s s' : State) :
  initGame fuel now s = Done s' ->
  snake s' = [ mkCell (COLS / 2 - 1) (ROWS / 2);
               mkCell (COLS / 2 - 2) (ROWS / 2);
               mkCell (COLS / 2 - 3) (ROWS / 2) ] /\
  score s' = 0 /\ accumulator s' = 0%Q /\ lastTime s' = now /\
  running s' = true /\ paused s' = false /\ gameOver s' = false /\
  dir s' = mkCell 1 0 /\ nextDir s' = mkCell 1 0.
Proof.
  unfold initGame. intros E.
  destruct (placeFood fuel _) as [s1| |] eqn:Ep; try done. simpl in E.
  injection E as <-. apply placeFood_done in Ep as (k & -> & _). done.
Qed.

Lemma initGame_well_formed (fuel : nat) (now : Q) (s s' : State) :
  initGame fuel now s = Done s' -> well_formed s'.
Proof.
  intros E. apply initGame_done in E as (Es & Esc & _). unfold well_formed.
  rewrite Es, Esc. split; [|done].
  repeat constructor; rewrite ?elem_of_cons, ?elem_of_nil;
    intros H; repeat destruct H as [H|H]; try injection H; try done; lia.
Qed.

Lemma setDirection_frame (action : string) (s : State) :
  snake (setDirection action s) = snake s /\
  score (setDirection action s) = score s /\
  dir (setDirection action s) = dir s /\
  accumulator (setDirection action s) = accumulator s.
Proof.
  unfold setDirection. destruct (dir_map !! action) as [nd|]; [|done].
  by destruct (_ && _).
Qed.

Lemma togglePause_frame (now : Q) (s : State) :
  snake (togglePause now s) = snake s /\
  score (togglePause now s) = score s /\
  accumulator (togglePause now s) = accumulator s.
Proof.
  unfold togglePause. destruct (gameOver s); [done|].
  by destruct (paused s).
Qed.

Lemma gameLoop_well_formed (fuel : nat) (time : Q) (s s' : State) (n : nat) :
  gameLoop fuel time s = Done (s', n) -> well_formed s -> well_formed s'.
Proof.
  unfold gameLoop. destruct (running s); simpl; [|by intros [= <- <-]].
  destruct (paused s); [by intros [= <- <-]|].
  intros E Hwf. by apply drain_well_formed in E.
Qed.

Lemma reachable_well_formed (frame_ok : State -> Q -> Prop) (s : State) :
  reachable_if frame_ok s -> well_formed s.
Proof.
  induction 1 as [fuel now s E | fuel s s' _ IH E | action s _ IH | now s _ IH
                 | fuel now s s' _ IH E | fuel s s' _ IH E | fuel time s s' n _ IH _ E].
  - by apply initGame_well_formed in E.
  - apply update_tick in E. by apply (tick_well_formed _ _ _ E).
  - destruct (setDirection_frame action s) as (Es & Esc & _).
    unfold well_formed. by rewrite Es, Esc.
  - destruct (togglePause_frame now s) as (Es & Esc & _).
    unfold well_formed. by rewrite Es, Esc.
  - by apply initGame_well_formed in E.
  - apply placeFood_snake in E as (Es & Esc & _).
    unfold well_formed. by rewrite Es, Esc.
  - by apply gameLoop_well_formed in E.
Qed.

End Invariants.

(** ** The scheduler's clock *)

Section Clock.

Context {host : Host}.

Lemma step_pos : (0 < step)%Q.
Proof. reflexivity. Qed.

Lemma ticks_S (n : nat) : (ticks (S n) == ticks n + 1)%Q.
Proof. unfold ticks. by rewrite Nat2Z.inj_succ, <- Z.add_1_r, inject_Z_plus. Qed.

Lemma ticks_nonneg (n : nat) : (0 <= ticks n)%Q.
Proof. unfold ticks. change 0%Q with (inject_Z 0). rewrite <- Zle_Qle. lia. Qed.

(** What the loop of [gameLoop] does to the clock: each tick consumes one
    [step]; the loop ends below [step]; and the accumulator does not end
    negative unless it started negative and no tick ran. *)
Lemma drain_clock (fuel : nat) (s s' : State) (n : nat) :
  drain fuel s = Done (s', n) ->
  (accumulator s' + ticks n * step == accumulator s)%Q /\
  (accumulator s' < step)%Q /\
  ((0 <= accumulator s)%Q \/ (0 < n)%nat -> (0 <= accumulator s')%Q) /\
  lastTime s' = lastTime s.
Proof.
  revert s n. induction fuel as [|fuel IH]; intros s n E;
    apply drain_done in E as [(Hq & -> & ->)|(f & s1 & m & Hf & -> & Hq & Eu & Ed)];
    try done.
  - split_and!; try done.
    + change (ticks 0) with 0%Q. lra.
    + apply Qnot_le_lt. intros Hle. apply Qle_bool_iff in Hle. congruence.
    + intros [H|H]; [done | lia].
  - split_and!; try done.
    + change (ticks 0) with 0%Q. lra.
    + apply Qnot_le_lt. intros Hle. apply Qle_bool_iff in Hle. congruence.
    + intros [H|H]; [done | lia].
  - injection Hf as <-. apply Qle_bool_iff in Hq.
    apply update_tick, tick_clock in Eu as [Ea El].
    apply IH in Ed as (Hsum & Hlt & Hpos & Hl). cbn [accumulator lastTime set_accumulator] in *.
    rewrite Ea in *. split_and!.
    + rewrite ticks_S. lra.
    + done.
    + intros _. apply Hpos. left. lra.
    + congruence.
Qed.

(** A frame does nothing when the game is not running or is paused; else it
    is the loop run on the advanced clock. *)
Lemma gameLoop_done (fuel : nat) (time : Q) (s s' : State) (n : nat) :
  gameLoop fuel time s = Done (s', n) ->
  ((running s = false \/ paused s = true) /\ s' = s /\ n = O) \/
  (running s = true /\ paused s = false /\ drain fuel (advance time s) = Done (s', n)).
Proof.
  unfold gameLoop. destruct (running s); simpl.
  - destruct (paused s).
    + intros [= <- <-]. left. auto.
    + intros E. right. auto.
  - intros [= <- <-]. left. auto.
Qed.



End Clock.

(** ** When the calls return *)

Section Returns.

Context {host : Host}.

Lemma update_mono (fuel fuel' : nat) (s s' : State) :
  update fuel s = Done s' -> (fuel <= fuel')%nat -> update fuel' s = Done s'.
Proof.
  intros E Hle. apply update_tick in E.
  destruct E as [ Hi | h t Hi Hs Hc | h t s' Hi Hs Hg Hf Hfood E | h t Hi Hs Hg Hf Hfood ].
  - by apply update_idle.
  - by apply (update_crash _ _ h t).
  - rewrite (update_eat _ _ h t) by done. by apply (placeFood_mono fuel).
  - by apply (update_move _ _ h t).
Qed.

Lemma drain_mono (fuel fuel' : nat) (s : State) (r : State * nat) :
  drain fuel s = Done r -> (fuel <= fuel')%nat -> drain fuel' s = Done r.
Proof.
  revert fuel' s r. induction fuel as [|fuel IH]; intros fuel' s [s' n] E Hle;
    apply drain_done in E as [(Hq & -> & ->)|(f & s1 & m & Hf & -> & Hq & Eu & Ed)];
    try done.
  - destruct fuel'; [rewrite drain_0 | rewrite drain_S]; by rewrite Hq.
  - destruct fuel'; [rewrite drain_0 | rewrite drain_S]; by rewrite Hq.
  - injection Hf as <-. destruct fuel' as [|fuel']; [lia|].
    rewrite drain_S, Hq. rewrite (update_mono fuel fuel' _ _ Eu) by lia. simpl.
    rewrite (IH fuel' _ _ Ed) by lia. done.
Qed.

Lemma fair_draws_shift (p m : nat) : fair_draws p -> fair_draws (p + 2 * m).
Proof.
  intros Hf c Hc j. destruct (Hf c Hc (j + m)%nat) as (k & Hk & E).
  exists (k - m)%nat. split; [lia|].
  rewrite <- E. f_equal. lia.
Qed.

Lemma nth_cell_in_grid (i : Z) :
  0 < COLS -> 0 <= i < COLS * ROWS -> in_grid (nth_cell i).
Proof.
  intros HC Hi. unfold in_grid, nth_cell; simpl. split.
  - apply Z.mod_pos_bound. lia.
  - split; [apply Z.div_pos; lia | apply Z.div_lt_upper_bound; lia].
Qed.

Lemma nth_cell_inj (i j : Z) : 0 < COLS -> nth_cell i = nth_cell j -> i = j.
Proof.
  intros HC [= Hm Hd].
  rewrite (Z.div_mod i COLS), (Z.div_mod j COLS) by lia. by rewrite Hm, Hd.
Qed.

(** A snake shorter than the number of cells leaves a cell free. *)
Lemma free_cell (l : list Cell) :
  0 < COLS -> Z.of_nat (length l) < COLS * ROWS ->
  exists c : Cell, in_grid c /\ c ∉ l.
Proof.
  intros HC Hlen.
  set (grid := nth_cell <$> seqZ 0 (COLS * ROWS)).
  assert (Hgrid : forall c, c ∈ grid -> in_grid c).
  { intros c (i & -> & Hi)%list_elem_of_fmap. apply elem_of_seqZ in Hi.
    apply nth_cell_in_grid; lia. }
  destruct (decide (Forall (fun c => c ∈ l) grid)) as [Hall|Hex].
  - exfalso.
    assert (Hnd : NoDup grid).
    { apply NoDup_fmap_2_strong; [|apply NoDup_seqZ].
      intros i j _ _. by apply nth_cell_inj. }
    assert (Hsub : grid ⊆+ l).
    { apply NoDup_submseteq; [done|]. by apply Forall_forall. }
    apply submseteq_length in Hsub. unfold grid in Hsub.
    rewrite length_fmap, length_seqZ in Hsub. lia.
  - apply not_Forall_Exists in Hex; [|intros c; apply _].
    apply Exists_exists in Hex as (c & Hc & Hfree). eauto.
Qed.

Lemma placeFood_returns (s : State) :
  fair_draws (rpos s) -> (exists c : Cell, in_grid c /\ c ∉ snake s) ->
  exists fuel s', placeFood fuel s = Done s'.
Proof.
  intros Hf (c & Hc & Hfree). destruct (Hf c Hc 0%nat) as (k & _ & E).
  destruct (placeFood_hit k s) as [s' Hs']; [by rewrite E | eauto].
Qed.

Lemma placeFood_fair (fuel : nat) (s s' : State) :
  placeFood fuel s = Done s' -> fair_draws (rpos s) -> fair_draws (rpos s').
Proof.
  intros E Hf. apply placeFood_done in E as (k & -> & _).
  cbn [rpos set_food set_rpos].
  replace (rpos s + 2 * k + 2)%nat with (rpos s + 2 * S k)%nat by lia.
  by apply fair_draws_shift.
Qed.

(** What a tick keeps: a snake that has a head, at most one more segment,
    and fair draws. *)
Lemma tick_keeps (fuel : nat) (s s' : State) :
  tick fuel s s' ->
  (snake s <> [] -> snake s' <> []) /\
  (length (snake s') <= S (length (snake s)))%nat /\
  (fair_draws (rpos s) -> fair_draws (rpos s')).
Proof.
  intros T. destruct T as [ | | h t s' _ _ _ _ _ E | h t _ Hs _ _ _ ].
  - split_and!; auto.
  - split_and!; auto.
  - pose proof (placeFood_fair _ _ _ E) as Hfair.
    apply placeFood_snake in E as (Es & _). rewrite Es. simpl.
    split_and!; [done | lia | done].
  - unfold moved. cbn [snake rpos set_snake set_dir]. split_and!.
    + intros _. rewrite Hs. done.
    + rewrite removelast_cons_length. lia.
    + done.
Qed.

(** A tick returns when the snake has a head, the draws are fair and the
    snake, grown by one, still leaves a cell free. *)
Lemma update_returns (s : State) :
  0 < COLS -> snake s <> [] -> fair_draws (rpos s) ->
  Z.of_nat (length (snake s)) + 1 < COLS * ROWS ->
  exists fuel s', update fuel s = Done s'.
Proof.
  intros HC Hne Hf Hlen. destruct (idle s) eqn:Hi.
  { exists 0%nat, s. by apply update_idle. }
  destruct (snake s) as [|h t] eqn:Hs; [done|]. rewrite <- Hs in *.
  destruct (decide (in_grid (move h (nextDir s)))) as [Hg|Hg].
  2:{ exists 0%nat, (crashed s). apply (update_crash _ _ h t); auto. }
  destruct (decide (move h (nextDir s) ∈ snake s)) as [Hin|Hin].
  { exists 0%nat, (crashed s). apply (update_crash _ _ h t); auto. }
  destruct (decide (food s = Some (move h (nextDir s)))) as [Hfood|Hfood].
  - destruct (placeFood_returns (grown (move h (nextDir s)) s)) as (fuel & s' & E).
    + done.
    + apply free_cell; [done|]. simpl. lia.
    + exists fuel, s'. by rewrite (update_eat _ _ h t).
  - exists 0%nat, (moved (move h (nextDir s)) s). by apply (update_move _ _ h t).
Qed.

(** The loop of [gameLoop] returns when at most [n] ticks are due and the
    snake, grown by [n], still leaves a cell free. *)
Lemma drain_returns (n : nat) (s : State) :
  0 < COLS -> snake s <> [] -> fair_draws (rpos s) ->
  (accumulator s < ticks n * step)%Q \/ (accumulator s < step)%Q ->
  Z.of_nat (length (snake s)) + Z.of_nat n < COLS * ROWS ->
  exists fuel r, drain fuel s = Done r.
Proof.
  intros HC. revert s. induction n as [|n IH]; intros s Hne Hf Hacc Hlen.
  - exists 0%nat, (s, O). rewrite drain_0.
    destruct (Qle_bool _ _) eqn:Hq; [|done].
    apply Qle_bool_iff in Hq. change (ticks 0) with 0%Q in Hacc.
    pose proof step_pos. lra.
  - destruct (Qle_bool step (accumulator s)) eqn:Hq.
    2:{ exists 0%nat, (s, O). rewrite drain_0. by rewrite Hq. }
    destruct (update_returns s) as (f1 & s1 & Eu); [done | done | done | lia |].
    pose proof (update_tick _ _ _ Eu) as T.
    destruct (tick_keeps _ _ _ T) as (Hne1 & Hlen1 & Hf1).
    destruct (tick_clock _ _ _ T) as [Ea _].
    apply Qle_bool_iff in Hq.
    destruct (IH (set_accumulator (accumulator s1 - step)%Q s1)) as (f2 & r & Ed).
    + simpl. auto.
    + simpl. auto.
    + left. simpl. rewrite Ea. rewrite ticks_S in Hacc. lra.
    + simpl. lia.
    + exists (S (max f1 f2)), (fst r, S (snd r)). rewrite drain_S.
      rewrite (proj2 (Qle_bool_iff _ _) Hq).
      rewrite (update_mono f1 (max f1 f2) _ _ Eu) by lia. simpl.
      rewrite (drain_mono f2 (max f1 f2) _ _ Ed) by lia. done.
Qed.

End Returns.

(** ** A host to run the game on *)

Lemma floor_num (a : Z) (w : positive) : Qfloor ((a # w) * inject_Z (Z.pos w)) = a.
Proof.
  rewrite <- (Qfloor_Z a) at 2. apply Qfloor_comp.
  unfold Qeq, inject_Z, Qmult; simpl. lia.
Qed.

Lemma scan_cell (w h : positive) (start i : nat) :
  @sample_cell (scan_host w h start) (2 * i) =
  mkCell (Z.of_nat (start + i) mod Z.pos w)
         ((Z.of_nat (start + i) / Z.pos w) mod Z.pos h).
Proof.
  unfold sample_cell, scan_host, scan. cbn [COLS ROWS random].
  assert (E0 : Nat.even (2 * i) = true) by (apply Nat.even_spec; by exists i).
  assert (E1 : Nat.even (S (2 * i)) = false).
  { rewrite Nat.even_succ, <- Nat.negb_even, E0. done. }
  assert (D0 : (2 * i / 2)%nat = i) by (rewrite Nat.mul_comm; apply Nat.div_mul; lia).
  assert (D1 : (S (2 * i) / 2)%nat = i).
  { symmetry. apply (Nat.div_unique _ 2 i 1); lia. }
  rewrite E0, E1, D0, D1. by rewrite !floor_num.
Qed.

Lemma scan_unit (w h : positive) (start : nat) : @unit_draws (scan_host w h start).
Proof.
  intros n. unfold scan_host, scan. cbn [random].
  pose proof (Z.mod_pos_bound (Z.of_nat (start + n / 2)) (Z.pos w) eq_refl).
  pose proof (Z.mod_pos_bound (Z.of_nat (start + n / 2) / Z.pos w) (Z.pos h) eq_refl).
  destruct (Nat.even n); unfold Qle, Qlt; cbn [Qnum Qden]; lia.
Qed.

Lemma scan_fair (w h : positive) (start m : nat) :
  @fair_draws (scan_host w h start) (2 * m).
Proof.
  intros [x y] [[Hx0 Hx1] [Hy0 Hy1]] j. cbn [COLS ROWS scan_host cx cy] in *.
  set (W := Z.pos w) in *. set (H := Z.pos h) in *.
  assert (HW : 0 < W) by done. assert (HH : 0 < H) by done.
  set (N := Z.of_nat (start + m + j)).
  set (i := x + (y + H * N) * W).
  assert (Hi : N <= i).
  { unfold i.
    assert (N <= H * N) by nia.
    assert (y + H * N <= (y + H * N) * W) by nia.
    lia. }
  exists (Z.to_nat i - start - m)%nat. split; [lia|].
  replace (2 * m + 2 * (Z.to_nat i - start - m))%nat
    with (2 * (Z.to_nat i - start))%nat by lia.
  rewrite scan_cell.
  replace (start + (Z.to_nat i - start))%nat with (Z.to_nat i) by lia.
  rewrite Z2Nat.id by lia. fold W H. unfold i. f_equal.
  - rewrite Z_mod_plus_full. apply Z.mod_small. lia.
  - rewrite Z.div_add by lia. rewrite (Z.div_small x W) by lia.
    rewrite Z.add_0_l, Z.mul_comm, Z_mod_plus_full. apply Z.mod_small. lia.
Qed.

Section Frames.

Context {host : Host}.

(** A frame returns when the game has a snake, the draws are fair, fewer
    than [n] ticks are due and the snake, grown by [n], still leaves a cell
    free. *)
Lemma gameLoop_returns (n : nat) (time : Q) (s : State) :
  0 < COLS -> snake s <> [] -> fair_draws (rpos s) ->
  (accumulator s + (time - lastTime s) / 1000 < ticks n * step)%Q ->
  Z.of_nat (length (snake s)) + Z.of_nat n < COLS * ROWS ->
  exists fuel r, gameLoop fuel time s = Done r.
Proof.
  intros HC Hne Hf Hacc Hlen. unfold gameLoop.
  destruct (running s); simpl; [|by exists 0%nat; eauto].
  destruct (paused s); [by exists 0%nat; eauto|].
  apply (drain_returns n); auto.
Qed.

(** Every operation but a frame leaves the accumulator alone or resets it;
    a frame that does not go back in time keeps it in range. *)
Lemma gameLoop_range (fuel : nat) (time : Q) (s s' : State) (n : nat) :
  gameLoop fuel time s = Done (s', n) ->
  (0 <= accumulator s < step)%Q -> (lastTime s <= time)%Q ->
  (0 <= accumulator s' < step)%Q.
Proof.
  intros E [H0 H1] Ht.
  apply gameLoop_done in E as [(_ & -> & _)|(Hr & Hp & E)]; [done|].
  apply drain_clock in E as (_ & Hlt & Hpos & _). split; [|done].
  apply Hpos. left. simpl.
  assert (0 <= (time - lastTime s) / 1000)%Q
    by (apply Qle_shift_div_l; [reflexivity | lra]).
  lra.
Qed.

Lemma reachable_forward_range (s : State) :
  reachable_forward s -> (0 <= accumulator s < step)%Q.
Proof.
  induction 1 as [fuel now s E | fuel s s' _ IH E | action s _ IH | now s _ IH
                 | fuel now s s' _ IH E | fuel s s' _ IH E | fuel time s s' n _ IH Ht E].
  - apply initGame_done in E as (_ & _ & -> & _). by split.
  - apply update_tick, tick_clock in E as [-> _]. done.
  - destruct (setDirection_frame action s) as (_ & _ & _ & ->). done.
  - destruct (togglePause_frame now s) as (_ & _ & ->). done.
  - apply initGame_done in E as (_ & _ & -> & _). by split.
  - apply placeFood_snake in E as (_ & _ & -> & _). done.
  - by apply (gameLoop_range _ _ _ _ _ E).
Qed.

End Frames.

(** ** Direction intents *)

Lemma intents_dir (actions : list string) (s : State) :
  dir (intents actions s) = dir s.
Proof.
  revert s. induction actions as [|a l IH]; intros s; [done|].
  unfold intents in *. simpl. rewrite IH.
  by destruct (setDirection_frame a s) as (_ & _ & -> & _).
Qed.

(** ** The example states *)

Lemma demo_init_reachable : @reachable demo demo_init.
Proof. by apply (reach_initGame _ 1%nat 1000%Q). Qed.

Lemma demo_fed_reachable : @reachable demo demo_fed.
Proof.
  apply (reach_gameLoop _ 10%nat 1130%Q demo_init demo_fed 1%nat).
  - apply demo_init_reachable.
  - exact I.
  - vm_compute. reflexivity.
Qed.




(** * The properties of the specification *)

Section Claims.

Context {host : Host}.

(** C1: in every state reachable from [initGame] by [update],
    [setDirection], [togglePause], [restartGame], [placeFood] (and whole
    frames of [gameLoop]), two distinct indices of the snake refer to two
    distinct cells; in particular while [gameOver] is false. *)
Theorem snake_cells_distinct (s : State) (i j : nat) (a b : Cell) :
  reachable s -> gameOver s = false -> i <> j ->
  snake s !! i = Some a -> snake s !! j = Some b -> a <> b.
Proof.
  intros Hr _ Hij Ha Hb ->. apply reachable_well_formed in Hr as [Hnd _].
  apply Hij. by apply (NoDup_lookup (snake s) i j b).
Qed.

(** C2: a tick of a running game whose new head, the head moved by the
    direction the tick commits (the queued one), is outside the grid returns
    with [gameOver] set and [running] cleared, and with the snake, the score
    and the food as they were: the new head is not added. *)
Theorem update_wall_collision (fuel : nat) (s : State) (h : Cell) (t : list Cell) :
  running s = true -> paused s = false -> gameOver s = false ->
  snake s = h :: t ->
  ~ in_grid (move h (nextDir s)) ->
  exists s', update fuel s = Done s' /\
    gameOver s' = true /\ running s' = false /\
    snake s' = snake s /\ score s' = score s /\ food s' = food s.
Proof.
  intros Hr Hp Hg Hs Hout. exists (crashed s).
  assert (Hi : idle s = false) by (unfold idle; by rewrite Hr, Hp, Hg).
  by rewrite (update_crash fuel s h t Hi Hs (or_introl Hout)).
Qed.


(** C4, as the code has it: the accumulator is 0 when [initGame] or
    [restartGame] returns; a frame whose timestamp is not earlier than
    [lastTime] takes an accumulator of [[0, step)] to one of [[0, step)],
    and so the accumulator is in [[0, step)] in every state reached with
    such frames; a frame with any timestamp leaves the accumulator below
    [step]; and such a frame returns when the draws are fair and the snake,
    grown by the ticks that are due, leaves a cell free. *)
Theorem accumulator_range :
  (forall fuel now s s', initGame fuel now s = Done s' -> accumulator s' = 0%Q) /\
  (forall fuel now s s', restartGame fuel now s = Done s' -> accumulator s' = 0%Q) /\
  (forall fuel time s s' n,
     gameLoop fuel time s = Done (s', n) ->
     (0 <= accumulator s < step)%Q -> (lastTime s <= time)%Q ->
     (0 <= accumulator s' < step)%Q) /\
  (forall s, reachable_forward s -> (0 <= accumulator s < step)%Q) /\
  (forall fuel time s s' n,
     gameLoop fuel time s = Done (s', n) ->
     (accumulator s < step)%Q -> (accumulator s' < step)%Q) /\
  (forall (n : nat) time s,
     0 < COLS -> snake s <> [] -> fair_draws (rpos s) ->
     (accumulator s + (time - lastTime s) / 1000 < ticks n * step)%Q ->
     Z.of_nat (length (snake s)) + Z.of_nat n < COLS * ROWS ->
     exists fuel r, gameLoop fuel time s = Done r).
Proof.
  split_and!.
  - intros fuel now s s' E. by apply initGame_done in E as (_ & _ & -> & _).
  - intros fuel now s s' E. by apply initGame_done in E as (_ & _ & -> & _).
  - apply gameLoop_range.
  - apply reachable_forward_range.
  - intros fuel time s s' n E Hlt.
    apply gameLoop_done in E as [(_ & -> & _)|(_ & _ & E)]; [done|].
    by apply drain_clock in E as (_ & Hlt' & _).
  - apply gameLoop_returns.
Qed.

(** C5: a [setDirection] call whose vector is the exact inverse of the
    current direction changes nothing, neither the current nor the queued
    direction, wherever the call stands in a sequence of direction intents:
    the intents before it leave the current direction as it was. *)
Theorem setDirection_reverse (s : State) (before : list string)
    (action : string) (nd : Cell) :
  dir_map !! action = Some nd ->
  cx nd = - cx (dir s) -> cy nd = - cy (dir s) ->
  dir (intents before s) = dir s /\
  setDirection action (intents before s) = intents before s.
Proof.
  intros Hmap Hx Hy. pose proof (intents_dir before s) as Hd. split; [done|].
  unfold setDirection. rewrite Hmap, Hd, Hx, Hy, !Z.eqb_refl. done.
Qed.

(** C6: when [placeFood] returns, the food is a cell no segment of the
    snake is on, and the snake, the score, both directions, the three flags,
    the accumulator and [lastTime] are as before the call. *)
Theorem placeFood_effect (fuel : nat) (s s' : State) :
  placeFood fuel s = Done s' ->
  (exists c : Cell, food s' = Some c /\ forall seg, seg ∈ snake s' -> seg <> c) /\
  snake s' = snake s /\ score s' = score s /\
  dir s' = dir s /\ nextDir s' = nextDir s /\
  running s' = running s /\ paused s' = paused s /\ gameOver s' = gameOver s /\
  accumulator s' = accumulator s /\ lastTime s' = lastTime s.
Proof.
  intros E. apply placeFood_done in E as (k & -> & Hfree & _).
  split_and!; try done.
  exists (sample_cell (rpos s + 2 * k)). split; [done|].
  intros seg Hseg ->. by apply Hfree.
Qed.



(** C9: in every reachable state the snake has three segments more than the
    score. *)
Theorem snake_length_score (s : State) :
  reachable s -> Z.of_nat (length (snake s)) = score s + 3.
Proof. intros Hr. by apply reachable_well_formed in Hr as [_ Hlen]. Qed.

(** C10: a tick of a running game whose new head is the cell of the last
    segment returns with [gameOver] set and [running] cleared: the snake is
    searched in full, tail included, and is left as it was. *)
Theorem update_tail_collision (fuel : nat) (s : State) (h : Cell) (t : list Cell) :
  running s = true -> paused s = false -> gameOver s = false ->
  snake s = h :: t ->
  last (snake s) = Some (move h (nextDir s)) ->
  exists s', update fuel s = Done s' /\
    gameOver s' = true /\ running s' = false /\ snake s' = snake s.
Proof.
  intros Hr Hp Hg Hs Hlast. exists (crashed s).
  assert (Hi : idle s = false) by (unfold idle; by rewrite Hr, Hp, Hg).
  assert (Hin : move h (nextDir s) ∈ snake s).
  { apply list_elem_of_lookup. exists (pred (length (snake s))).
    by rewrite <- last_lookup. }
  by rewrite (update_crash fuel s h t Hi Hs (or_intror Hin)).
Qed.

End Claims.

(** * The properties at work on the example states *)

Lemma snake_cells_distinct_witness :
  @reachable demo demo_fed /\ gameOver demo_fed = false /\ 0%nat <> 3%nat /\
  snake demo_fed !! 0%nat = Some (mkCell 3 3) /\
  snake demo_fed !! 3%nat = Some (mkCell 0 3) /\
  mkCell 3 3 <> mkCell 0 3.
Proof.
  split_and!; try reflexivity; try apply demo_fed_reachable; try lia.
  apply (@snake_cells_distinct demo demo_fed 0 3);
    [apply demo_fed_reachable | reflexivity | lia | reflexivity | reflexivity].
Defined.

Lemma update_wall_collision_witness :
  running demo_wall = true /\ paused demo_wall = false /\ gameOver demo_wall = false /\
  snake demo_wall = mkCell 0 5 :: [mkCell 1 5; mkCell 2 5] /\
  ~ @in_grid demo (move (mkCell 0 5) (nextDir demo_wall)) /\
  exists s', @update demo 0 demo_wall = Done s' /\
    gameOver s' = true /\ running s' = false /\
    snake s' = snake demo_wall /\ score s' = score demo_wall /\ food s' = food demo_wall.
Proof.
  assert (Hout : ~ @in_grid demo (move (mkCell 0 5) (nextDir demo_wall))).
  { unfold in_grid. simpl. lia. }
  split_and!; try reflexivity; try exact Hout.
  apply (@update_wall_collision demo 0 demo_wall (mkCell 0 5) [mkCell 1 5; mkCell 2 5]);
    [reflexivity | reflexivity | reflexivity | reflexivity | exact Hout].
Defined.


(** C4 fails as stated: a frame whose timestamp, 0, is earlier than
    [lastTime], 1000, takes the accumulator from 0 to -1. *)
Lemma accumulator_negative :
  @reachable demo demo_init /\
  (0 <= accumulator demo_init < step)%Q /\
  @gameLoop demo 0 0 demo_init = Done (demo_back, O) /\
  ~ (0 <= accumulator demo_back < step)%Q.
Proof.
  split_and!.
  - apply demo_init_reachable.
  - discriminate.
  - reflexivity.
  - vm_compute; reflexivity.
  - intros [H _]. vm_compute in H. by apply H.
Qed.

Lemma accumulator_range_witness :
  @gameLoop demo 10 1130 demo_init = Done (demo_fed, 1%nat) /\
  (0 <= accumulator demo_init < step)%Q /\ (lastTime demo_init <= 1130)%Q /\
  (0 <= accumulator demo_fed < step)%Q /\
  (exists fuel r, @gameLoop demo fuel 1130 demo_init = Done r).
Proof.
  assert (E : @gameLoop demo 10 1130 demo_init = Done (demo_fed, 1%nat))
    by (vm_compute; reflexivity).
  assert (Ha : (0 <= accumulator demo_init < step)%Q) by (split; reflexivity || discriminate).
  assert (Ht : (lastTime demo_init <= 1130)%Q) by discriminate.
  destruct (@accumulator_range demo) as (_ & _ & H3 & _ & _ & H6).
  refine (conj E (conj Ha (conj Ht (conj _ _)))).
  - apply (H3 10%nat 1130%Q demo_init demo_fed 1%nat E Ha Ht).
  - apply (H6 2%nat 1130%Q demo_init).
    + reflexivity.
    + discriminate.
    + exact (scan_fair 6 6 21 1).
    + reflexivity.
    + reflexivity.
Defined.

Lemma setDirection_reverse_witness :
  dir_map !! "left" = Some (mkCell (-1) 0) /\
  cx (mkCell (-1) 0) = - cx (dir demo_init) /\
  cy (mkCell (-1) 0) = - cy (dir demo_init) /\
  dir (intents ["up"] demo_init) = dir demo_init /\
  setDirection "left" (intents ["up"] demo_init) = intents ["up"] demo_init.
Proof.
  destruct (setDirection_reverse demo_init ["up"] "left" (mkCell (-1) 0))
    as [Hdir Hsame]; [reflexivity | reflexivity | reflexivity |].
  exact (conj eq_refl (conj eq_refl (conj eq_refl (conj Hdir Hsame)))).
Defined.

Lemma placeFood_effect_witness :
  @placeFood demo 1 demo_init = Done demo_placed /\
  (exists c : Cell, food demo_placed = Some c /\
                    forall seg, seg ∈ snake demo_placed -> seg <> c) /\
  snake demo_placed = snake demo_init /\ score demo_placed = score demo_init /\
  dir demo_placed = dir demo_init /\ nextDir demo_placed = nextDir demo_init /\
  running demo_placed = running demo_init /\ paused demo_placed = paused demo_init /\
  gameOver demo_placed = gameOver demo_init /\
  accumulator demo_placed = accumulator demo_init /\
  lastTime demo_placed = lastTime demo_init.
Proof.
  split; [vm_compute; reflexivity|].
  apply (@placeFood_effect demo 1 demo_init demo_placed). vm_compute. reflexivity.
Defined.




Lemma snake_length_score_witness :
  @reachable demo demo_fed /\ Z.of_nat (length (snake demo_fed)) = score demo_fed + 3.
Proof.
  split; [apply demo_fed_reachable|].
  apply (@snake_length_score demo demo_fed). apply demo_fed_reachable.
Defined.

Lemma update_tail_collision_witness :
  running demo_loop = true /\ paused demo_loop = false /\ gameOver demo_loop = false /\
  snake demo_loop = mkCell 2 2 :: [mkCell 3 2; mkCell 3 3; mkCell 2 3] /\
  last (snake demo_loop) = Some (move (mkCell 2 2) (nextDir demo_loop)) /\
  exists s', @update demo 0 demo_loop = Done s' /\
    gameOver s' = true /\ running s' = false /\ snake s' = snake demo_loop.
Proof.
  split_and!; try reflexivity.
  apply (@update_tail_collision demo 0 demo_loop (mkCell 2 2)
           [mkCell 3 2; mkCell 3 3; mkCell 2 3]); reflexivity.
Defined.

(** * Further properties of the code *)

(** ** Every reachable state by cases on the operations *)

Section Induction.

Context {host : Host}.

Lemma placeFood_spec (fuel : nat) (s s' : State) :
  placeFood fuel s = Done s' ->
  exists (c : Cell) (k : nat),
    s' = set_food (Some c) (set_rpos (rpos s + 2 * k + 2) s) /\
    c = sample_cell (rpos s + 2 * k) /\ c ∉ snake s.
Proof.
  intros E. apply placeFood_done in E as (k & -> & Hfree & _).
  by exists (sample_cell (rpos s + 2 * k)), k.
Qed.

Lemma initGame_spec (fuel : nat) (now : Q) (s s' : State) :
  initGame fuel now s = Done s' ->
  exists (c : Cell) (k : nat),
    s' = mkState [ mkCell (COLS / 2 - 1) (ROWS / 2);
                   mkCell (COLS / 2 - 2) (ROWS / 2);
                   mkCell (COLS / 2 - 3) (ROWS / 2) ]
                 (mkCell 1 0) (mkCell 1 0) (Some c) 0 true false false 0%Q now
                 (rpos s + 2 * k + 2) /\
    c = sample_cell (rpos s + 2 * k) /\
    c ∉ [ mkCell (COLS / 2 - 1) (ROWS / 2);
          mkCell (COLS / 2 - 2) (ROWS / 2);
          mkCell (COLS / 2 - 3) (ROWS / 2) ].
Proof.
  unfold initGame. intros E.
  destruct (placeFood fuel _) as [s1| |] eqn:Ep; try done.
  apply placeFood_spec in Ep as (c & k & -> & Hc & Hfree).
  injection E as <-. exists c, k. done.
Qed.

Lemma drain_preserves (P : State -> Prop) :
  (forall fuel s s', P s -> tick fuel s s' -> P s') ->
  (forall v s, P s -> P (set_accumulator v s)) ->
  forall fuel s s' n, drain fuel s = Done (s', n) -> P s -> P s'.
Proof.
  intros Htick Hacc fuel. induction fuel as [|fuel IH]; intros s s' n E Hs;
    apply drain_done in E as [(_ & -> & _)|(f & s1 & m & Hf & _ & _ & Eu & Ed)];
    try done.
  injection Hf as <-. apply (IH _ _ _ Ed). apply Hacc.
  apply update_tick in Eu. by apply (Htick _ _ _ Hs Eu).
Qed.

(** A property holds in every reachable state when the first game has it
    and each operation keeps it. *)
Lemma reachable_by_cases (P : State -> Prop) :
  (forall fuel now s', initGame fuel now state0 = Done s' -> P s') ->
  (forall fuel now s s', P s -> initGame fuel now s = Done s' -> P s') ->
  (forall fuel s s', P s -> tick fuel s s' -> P s') ->
  (forall action s, P s -> P (setDirection action s)) ->
  (forall now s, P s -> P (togglePause now s)) ->
  (forall fuel s s', P s -> placeFood fuel s = Done s' -> P s') ->
  (forall v s, P s -> P (set_accumulator v s)) ->
  (forall v s, P s -> P (set_lastTime v s)) ->
  forall frame_ok s, reachable_if frame_ok s -> P s.
Proof.
  intros Hinit Hrestart Htick Hdir Hpause Hfood Hacc Hlast frame_ok s.
  induction 1 as [fuel now s E | fuel s s' _ IH E | action s _ IH | now s _ IH
                 | fuel now s s' _ IH E | fuel s s' _ IH E | fuel time s s' n _ IH _ E].
  - by apply (Hinit _ _ _ E).
  - apply update_tick in E. by apply (Htick _ _ _ IH E).
  - by apply Hdir.
  - by apply Hpause.
  - by apply (Hrestart _ _ _ _ IH E).
  - by apply (Hfood _ _ _ IH E).
  - apply gameLoop_done in E as [(_ & -> & _)|(_ & _ & E)]; [done|].
    apply (drain_preserves P Htick Hacc _ _ _ _ E).
    unfold advance. by apply Hacc, Hlast.
Qed.

End Induction.

(** ** The shape of the game *)

Lemma dir_map_lookup (action : string) (nd : Cell) :
  dir_map !! action = Some nd <->
  (action = "up" /\ nd = mkCell 0 (-1)) \/ (action = "down" /\ nd = mkCell 0 1) \/
  (action = "left" /\ nd = mkCell (-1) 0) \/ (action = "right" /\ nd = mkCell 1 0).
Proof.
  unfold dir_map. rewrite !lookup_insert_Some, lookup_empty. split.
  - intros [[<- <-]|[_ H]]; [auto|].
    destruct H as [[<- <-]|[_ H]]; [auto|].
    destruct H as [[<- <-]|[_ H]]; [auto|].
    destruct H as [[<- <-]|[_ H]]; [auto 6 | done].
  - intros [[-> ->]|[[-> ->]|[[-> ->]|[-> ->]]]].
    + by left.
    + right. split; [done|]. by left.
    + right. split; [done|]. right. split; [done|]. by left.
    + right. split; [done|]. right. split; [done|]. right. split; [done|]. by left.
Qed.

Lemma dir_map_unit (action : string) (nd : Cell) :
  dir_map !! action = Some nd -> unit_vector nd.
Proof.
  rewrite dir_map_lookup. unfold unit_vector.
  intros [[_ ->]|[[_ ->]|[[_ ->]|[_ ->]]]]; auto.
Qed.

Lemma unit_not_opposite (d : Cell) : unit_vector d -> ~ opposite d d.
Proof. intros [-> | [-> | [-> | ->]]] [Hx Hy]; simpl in *; lia. Qed.

Lemma unit_adjacent (h d : Cell) : unit_vector d -> adjacent (move h d) h.
Proof.
  intros [-> | [-> | [-> | ->]]]; unfold adjacent, move; simpl; lia.
Qed.

Lemma linked_cons (a b : Cell) (l : list Cell) :
  adjacent a b -> linked (b :: l) -> linked (a :: b :: l).
Proof.
  intros Hab Hl [|i] x y Hx Hy; simpl in *.
  - by injection Hx as <-; injection Hy as <-.
  - by apply (Hl i).
Qed.

Lemma linked_take (n : nat) (l : list Cell) : linked l -> linked (take n l).
Proof.
  intros Hl i a b Ha Hb.
  apply lookup_take_Some in Ha as [Ha _]. apply lookup_take_Some in Hb as [Hb _].
  by apply (Hl i).
Qed.

Lemma removelast_cons_cons (a b : Cell) (l : list Cell) :
  removelast (a :: b :: l) = a :: removelast (b :: l).
Proof. reflexivity. Qed.

Lemma elem_of_removelast (c : Cell) (l : list Cell) : c ∈ removelast l -> c ∈ l.
Proof.
  rewrite removelast_firstn_len. intros (i & Hi & _)%elem_of_take.
  by apply list_elem_of_lookup_2 in Hi.
Qed.

(** Reduce the projections of updated states, and nothing else. *)
Ltac fields :=
  cbn [snake dir nextDir food score running paused gameOver accumulator lastTime rpos
       set_snake set_dir set_nextDir set_food set_score set_running set_paused
       set_gameOver set_accumulator set_lastTime set_rpos crashed grown moved] in *.

Lemma idle_false (s : State) :
  idle s = false -> running s = true /\ paused s = false /\ gameOver s = false.
Proof. unfold idle. destruct (running s), (paused s), (gameOver s); simpl; auto. Qed.

Section Shape.

Context {host : Host}.

Lemma game_inv_initGame (fuel : nat) (now : Q) (s s' : State) :
  (exists m : nat, rpos s = (2 * m)%nat) ->
  initGame fuel now s = Done s' -> game_inv s'.
Proof.
  intros [m Hm] E. apply initGame_spec in E as (c & k & -> & _ & Hfree).
  split; simpl; try done.
  - unfold unit_vector; auto.
  - unfold unit_vector; auto.
  - intros [Hx _]; simpl in Hx; lia.
  - apply linked_cons; [unfold adjacent; simpl; lia|].
    apply linked_cons; [unfold adjacent; simpl; lia|].
    intros [|i] a b Ha Hb; done.
  - intros _. unfold move; simpl. f_equal; lia.
  - by exists c.
  - exists (m + k + 1)%nat. lia.
Qed.

Lemma game_inv_tick (fuel : nat) (s s' : State) :
  game_inv s -> tick fuel s s' -> game_inv s'.
Proof.
  intros I T.
  destruct T as [ | h t Hi Hs _ | h t s' Hi Hs _ Hfree _ E | h t Hi Hs _ Hfree Hfood ].
  - done.
  - apply idle_false in Hi as (Hr & Hp & Hg). destruct I.
    split; simpl; try done.
    by apply unit_not_opposite.
  - apply idle_false in Hi as (Hr & Hp & Hg). destruct I as [? Hn ? Hl ? ? ? ? ? [m Hm]].
    apply placeFood_spec in E as (c & k & -> & _ & Hc).
    split; simpl; try done.
    + by apply unit_not_opposite.
    + rewrite Hs. apply linked_cons; [by apply unit_adjacent | by rewrite <- Hs].
    + intros _. by rewrite Hs.
    + by exists c.
    + lia.
    + exists (m + k + 1)%nat. lia.
  - apply idle_false in Hi as (Hr & Hp & Hg).
    destruct I as [? Hn ? Hl ? ? ? (c & Hc & Hcfree) ? ?].
    split; fields; try done.
    + by apply unit_not_opposite.
    + rewrite removelast_firstn_len. refine (linked_take _ _ _).
      rewrite Hs. apply linked_cons; [by apply unit_adjacent | by rewrite <- Hs].
    + intros _. rewrite Hs. destruct t as [|n t]; [done|].
      by rewrite removelast_cons_cons.
    + exists c. split; [done|]. intros Hin. apply elem_of_removelast in Hin.
      apply elem_of_cons in Hin as [-> | Hin]; [by rewrite Hc in Hfood | done].
Qed.

Lemma game_inv_setDirection (action : string) (s : State) :
  game_inv s -> game_inv (setDirection action s).
Proof.
  intros I. unfold setDirection.
  destruct (dir_map !! action) as [nd|] eqn:Hmap; [|done].
  destruct (_ && _) eqn:Hrev; [done|].
  destruct I. split; simpl; try done.
  - by apply (dir_map_unit action).
  - intros [Hx Hy]. rewrite Hx, Hy, !Z.eqb_refl in Hrev. done.
Qed.

Lemma game_inv_togglePause (now : Q) (s : State) :
  game_inv s -> game_inv (togglePause now s).
Proof.
  intros I. unfold togglePause. destruct (gameOver s) eqn:Hg; [done|].
  destruct I. destruct (paused s); split; simpl; try done; congruence.
Qed.

Lemma game_inv_placeFood (fuel : nat) (s s' : State) :
  game_inv s -> placeFood fuel s = Done s' -> game_inv s'.
Proof.
  intros I E. apply placeFood_spec in E as (c & k & -> & _ & Hc).
  destruct I as [? ? ? ? ? ? ? ? ? [m Hm]]. split; simpl; try done.
  - by exists c.
  - exists (m + k + 1)%nat. lia.
Qed.

Lemma reachable_game_inv (frame_ok : State -> Q -> Prop) (s : State) :
  reachable_if frame_ok s -> game_inv s.
Proof.
  apply reachable_by_cases.
  - intros fuel now s' E. apply (game_inv_initGame fuel now state0 s'); [|done].
    by exists 0%nat.
  - intros fuel now s0 s' I E. apply (game_inv_initGame _ _ _ _ (inv_rpos _ I) E).
  - intros fuel s0 s' I T. by apply (game_inv_tick fuel s0).
  - intros action s0 I. by apply game_inv_setDirection.
  - intros now s0 I. by apply game_inv_togglePause.
  - intros fuel s0 s' I E. by apply (game_inv_placeFood fuel s0).
  - intros v s0 I. by destruct I.
  - intros v s0 I. by destruct I.
Qed.

End Shape.

(** ** Staying on the grid *)

Section Bounds.

Context {host : Host}.

Lemma first_snake_in_grid :
  0 <= COLS -> 0 <= ROWS ->
  Forall in_grid [ mkCell (COLS / 2 - 1) (ROWS / 2);
                   mkCell (COLS / 2 - 2) (ROWS / 2);
                   mkCell (COLS / 2 - 3) (ROWS / 2) ]
  <-> 6 <= COLS /\ 1 <= ROWS.
Proof.
  intros HC HR. rewrite !Forall_cons. unfold in_grid. simpl.
  pose proof (Z.div_mod COLS 2). pose proof (Z.mod_pos_bound COLS 2).
  pose proof (Z.div_mod ROWS 2). pose proof (Z.mod_pos_bound ROWS 2).
  split.
  - intros ([_ [? ?]] & _ & [[? _] _] & _). lia.
  - intros [? ?]. split_and!; try apply Forall_nil_2; lia.
Qed.

Lemma removelast_Forall (P : Cell -> Prop) (l : list Cell) :
  Forall P l -> Forall P (removelast l).
Proof. rewrite removelast_firstn_len. apply Forall_take. Qed.

Lemma reachable_in_grid (frame_ok : State -> Q -> Prop) (s : State) :
  6 <= COLS -> 1 <= ROWS -> reachable_if frame_ok s -> Forall in_grid (snake s).
Proof.
  intros HC HR. apply (reachable_by_cases (fun s => Forall in_grid (snake s))).
  - intros fuel now s' E. apply initGame_spec in E as (c & k & -> & _).
    apply first_snake_in_grid; lia.
  - intros fuel now s0 s' _ E. apply initGame_spec in E as (c & k & -> & _).
    apply first_snake_in_grid; lia.
  - intros fuel s0 s' I T.
    destruct T as [ | | h t s' _ _ Hin _ _ E | h t _ _ Hin _ _ ]; try done.
    + apply placeFood_spec in E as (c & k & -> & _). fields. by constructor.
    + fields. apply removelast_Forall. by constructor.
  - intros action s0 I. by destruct (setDirection_frame action s0) as (-> & _).
  - intros now s0 I. by destruct (togglePause_frame now s0) as (-> & _).
  - intros fuel s0 s' I E. by apply placeFood_snake in E as (-> & _).
  - done.
  - done.
Qed.

Lemma reachable_food_in_grid (frame_ok : State -> Q -> Prop) (s : State) (c : Cell) :
  unit_draws -> 0 < COLS -> 0 < ROWS ->
  reachable_if frame_ok s -> food s = Some c -> in_grid c.
Proof.
  intros Hu HC HR Hs. revert c.
  apply (reachable_by_cases (fun s => forall c, food s = Some c -> in_grid c))
    with (frame_ok := frame_ok); [..|done].
  - intros fuel now s' E c. apply initGame_spec in E as (d & k & -> & -> & _).
    intros [= <-]. by apply sample_cell_in_grid.
  - intros fuel now s0 s' _ E c. apply initGame_spec in E as (d & k & -> & -> & _).
    intros [= <-]. by apply sample_cell_in_grid.
  - intros fuel s0 s' I T.
    destruct T as [ | | h t s' _ _ _ _ _ E | ]; try done.
    apply placeFood_spec in E as (d & k & -> & -> & _). fields.
    intros c [= <-]. by apply sample_cell_in_grid.
  - intros action s0 I. unfold setDirection.
    destruct (dir_map !! action); [|done]. by destruct (_ && _).
  - intros now s0 I. unfold togglePause. destruct (gameOver s0); [done|].
    by destruct (paused s0).
  - intros fuel s0 s' I E. apply placeFood_spec in E as (d & k & -> & -> & _).
    fields. intros c [= <-]. by apply sample_cell_in_grid.
  - done.
  - done.
Qed.

(** Every cell of the grid has an index. *)
Lemma in_grid_nth_cell (c : Cell) :
  in_grid c -> exists i : Z, 0 <= i < COLS * ROWS /\ c = nth_cell i.
Proof.
  destruct c as [x y]. intros [[Hx0 Hx1] [Hy0 Hy1]]. simpl in *.
  exists (x + y * COLS). split; [nia|].
  unfold nth_cell. f_equal.
  - rewrite Z_mod_plus_full. symmetry. apply Z.mod_small. lia.
  - rewrite Z.div_add by lia. rewrite Z.div_small by lia. lia.
Qed.

(** Cells of the grid that are all different are at most as many as the
    grid has cells. *)
Lemma grid_capacity (l : list Cell) :
  0 < COLS -> 0 <= ROWS ->
  NoDup l -> Forall in_grid l -> Z.of_nat (length l) <= COLS * ROWS.
Proof.
  intros HC HR Hnd Hin.
  assert (Hsub : l ⊆+ nth_cell <$> seqZ 0 (COLS * ROWS)).
  { apply NoDup_submseteq; [done|]. intros c Hc.
    rewrite Forall_forall in Hin.
    destruct (in_grid_nth_cell c (Hin c Hc)) as (i & Hi & ->).
    apply list_elem_of_fmap. exists i. split; [done|]. apply elem_of_seqZ. lia. }
  apply submseteq_length in Hsub. rewrite length_fmap, length_seqZ in Hsub. nia.
Qed.

End Bounds.

(** ** What the calls never do *)

Section Safe.

Context {host : Host}.

Lemma update_not_raise (fuel : nat) (s : State) :
  snake s <> [] -> update fuel s <> Raise.
Proof.
  intros Hne. destruct (idle s) eqn:Hi.
  { by rewrite update_idle. }
  destruct (snake s) as [|h t] eqn:Hs; [done|].
  destruct (decide (in_grid (move h (nextDir s)))) as [Hg|Hg].
  2:{ rewrite (update_crash _ _ h t); auto. }
  destruct (decide (move h (nextDir s) ∈ snake s)) as [Hin|Hin].
  { rewrite (update_crash _ _ h t); auto. }
  destruct (decide (food s = Some (move h (nextDir s)))) as [Hf|Hf].
  - rewrite (update_eat _ _ h t) by done. apply placeFood_not_raise.
  - by rewrite (update_move _ _ h t).
Qed.

Lemma drain_not_raise (fuel : nat) (s : State) :
  snake s <> [] -> drain fuel s <> Raise.
Proof.
  revert s. induction fuel as [|fuel IH]; intros s Hne.
  - rewrite drain_0. by destruct (Qle_bool _ _).
  - rewrite drain_S. destruct (Qle_bool _ _); [|done].
    pose proof (update_not_raise fuel s Hne) as Hu.
    destruct (update fuel s) as [s1| |] eqn:Eu; try done. simpl.
    assert (Hne1 : snake s1 <> []).
    { apply update_tick, tick_keeps in Eu as (H & _). by apply H. }
    pose proof (IH (set_accumulator (accumulator s1 - step)%Q s1) Hne1) as Hd.
    by destruct (drain fuel _) as [[s2 m]| |].
Qed.

Lemma reachable_snake_length (frame_ok : State -> Q -> Prop) (s : State) :
  reachable_if frame_ok s -> (3 <= length (snake s))%nat.
Proof.
  intros Hr. pose proof (reachable_well_formed _ _ Hr) as [_ Hlen].
  pose proof (inv_score _ (reachable_game_inv _ _ Hr)). lia.
Qed.

Lemma reachable_fair (frame_ok : State -> Q -> Prop) (s : State) :
  fair_draws 0 -> reachable_if frame_ok s -> fair_draws (rpos s).
Proof.
  intros Hf Hr. destruct (inv_rpos _ (reachable_game_inv _ _ Hr)) as [m ->].
  by apply (fair_draws_shift 0 m).
Qed.

End Safe.

(** * Properties of the game beyond the specification's list *)

Section Game_properties.

Context {host : Host}.

(** [restartGame] resets the game wholesale: whatever the state it is
    called in, the state it returns has the three-segment snake in the
    middle row, heads right with nothing else queued, has score 0, is
    running, neither paused nor over, has an empty accumulator and
    [lastTime] at the time of the call, and has its food off the snake.
    Of the state before, only the position in the draws matters. *)
Theorem restartGame_resets (fuel : nat) (now : Q) (s s' : State) :
  restartGame fuel now s = Done s' ->
  snake s' = [ mkCell (COLS / 2 - 1) (ROWS / 2);
               mkCell (COLS / 2 - 2) (ROWS / 2);
               mkCell (COLS / 2 - 3) (ROWS / 2) ] /\
  dir s' = mkCell 1 0 /\ nextDir s' = mkCell 1 0 /\ score s' = 0 /\
  running s' = true /\ paused s' = false /\ gameOver s' = false /\
  accumulator s' = 0%Q /\ lastTime s' = now /\
  (exists c : Cell, food s' = Some c /\ c ∉ snake s') /\
  (forall t : State, rpos t = rpos s -> restartGame fuel now t = Done s').
Proof.
  intros E. pose proof E as E'. unfold restartGame in E'.
  apply initGame_spec in E' as (c & k & -> & _ & Hfree).
  split_and!; try done.
  - by exists c.
  - intros t Ht. rewrite <- E. unfold restartGame, initGame, placeFood.
    fields. rewrite Ht.
    by destruct (sample _ _ _) as [[c' q]| |].
Qed.

Lemma initGame_snake_in_grid_aux (fuel : nat) (now : Q) (s s' : State) :
  0 <= COLS -> 0 <= ROWS ->
  initGame fuel now s = Done s' ->
  (Forall in_grid (snake s') <-> 6 <= COLS /\ 1 <= ROWS).
Proof.
  intros HC HR E. apply initGame_spec in E as (c & k & -> & _).
  by apply first_snake_in_grid.
Qed.

(** On a grid of at least six columns and one row, every segment of the
    snake is inside the grid in every reachable state. *)
Theorem snake_in_grid (s : State) :
  6 <= COLS -> 1 <= ROWS -> reachable s -> Forall in_grid (snake s).
Proof. apply reachable_in_grid. Qed.

(** In every reachable state there is food, and it is on no segment of the
    snake; it is inside the grid when the grid is not empty and the draws
    are in [[0,1)]. *)
Theorem food_off_snake (s : State) :
  reachable s ->
  exists c : Cell, food s = Some c /\ (c ∉ snake s) /\
    (unit_draws -> 0 < COLS -> 0 < ROWS -> in_grid c).
Proof.
  intros Hr. destruct (inv_food _ (reachable_game_inv _ _ Hr)) as (c & Hc & Hfree).
  exists c. split_and!; try done.
  intros Hu HC HR. by apply (reachable_food_in_grid (fun _ _ => True) s).
Qed.

(** In every reachable state the current and the queued direction are each
    one of the four unit vectors, and the queued direction is not the
    reverse of the current one. *)
Theorem directions_unit (s : State) :
  reachable s ->
  unit_vector (dir s) /\ unit_vector (nextDir s) /\ ~ opposite (nextDir s) (dir s).
Proof. intros Hr. by destruct (reachable_game_inv _ _ Hr). Qed.

(** In every reachable state each segment of the snake shares a side with
    the next one: the snake is one connected path. *)
Theorem snake_connected (s : State) (i : nat) (a b : Cell) :
  reachable s -> snake s !! i = Some a -> snake s !! S i = Some b -> adjacent a b.
Proof. intros Hr. apply (inv_linked _ (reachable_game_inv _ _ Hr)). Qed.

(** In a reachable state of a game that is not over, the new head of the
    next tick is never the segment behind the head: no sequence of direction
    intents makes the snake reverse into its neck. *)
Theorem never_into_neck (s : State) (h n : Cell) (t : list Cell) :
  reachable s -> gameOver s = false -> snake s = h :: n :: t ->
  move h (nextDir s) <> n.
Proof.
  intros Hr Hg Hs Heq. destruct (reachable_game_inv _ _ Hr) as [_ _ Hrev _ Hhead _ _ _ _ _].
  specialize (Hhead Hg). rewrite Hs in Hhead. simpl in Hhead. subst h.
  apply Hrev. destruct n as [x y]. unfold move in Heq. simpl in Heq.
  injection Heq as Hx Hy. split; lia.
Qed.

(** In every reachable state the game is running exactly when it is not
    over, and a game that is over is not paused. *)
Theorem flags_consistent (s : State) :
  reachable s ->
  running s = negb (gameOver s) /\ (gameOver s = true -> paused s = false).
Proof. intros Hr. by destruct (reachable_game_inv _ _ Hr). Qed.

(** Once the game is over, ticks, frames and pause requests change nothing,
    whatever the timestamp: only a restart leaves the state. *)
Theorem gameOver_terminal (s : State) :
  reachable s -> gameOver s = true ->
  (forall fuel, update fuel s = Done s) /\
  (forall fuel time, gameLoop fuel time s = Done (s, O)) /\
  (forall now, togglePause now s = s) /\
  (forall action, gameOver (setDirection action s) = true).
Proof.
  intros Hr Hg. destruct (reachable_game_inv _ _ Hr) as [_ _ _ _ _ Hrun _ _ _ _].
  rewrite Hg in Hrun. split_and!.
  - intros fuel. apply update_idle. unfold idle. by rewrite Hg, orb_true_r.
  - intros fuel time. unfold gameLoop. by rewrite Hrun.
  - intros now. unfold togglePause. by rewrite Hg.
  - intros action. unfold setDirection. destruct (dir_map !! action); [|done].
    by destruct (_ && _).
Qed.

(** A tick of a running game whose new head is inside the grid, on no
    segment and not on the food moves the snake: the new head in front, the
    last segment gone, the others in place; the length, the score and the
    food are as before. *)
Theorem update_moves (fuel : nat) (s : State) (h : Cell) (t : list Cell) :
  running s = true -> paused s = false -> gameOver s = false ->
  snake s = h :: t ->
  in_grid (move h (nextDir s)) -> move h (nextDir s) ∉ snake s ->
  food s <> Some (move h (nextDir s)) ->
  exists s', update fuel s = Done s' /\
    snake s' = move h (nextDir s) :: removelast (snake s) /\
    length (snake s') = length (snake s) /\
    score s' = score s /\ food s' = food s /\
    running s' = true /\ gameOver s' = false.
Proof.
  intros Hr Hp Hg Hs Hin Hfree Hfood.
  assert (Hi : idle s = false) by (unfold idle; by rewrite Hr, Hp, Hg).
  exists (moved (move h (nextDir s)) s).
  rewrite (update_move fuel s h t) by done. fields. split_and!; try done.
  - by rewrite Hs.
  - by rewrite removelast_cons_length.
Qed.

(** A tick of a running game whose new head is on any segment of the snake
    ends the game and leaves the snake, the score and the food as they
    were. *)
Theorem update_self_collision (fuel : nat) (s : State) (h : Cell) (t : list Cell) :
  running s = true -> paused s = false -> gameOver s = false ->
  snake s = h :: t ->
  move h (nextDir s) ∈ snake s ->
  exists s', update fuel s = Done s' /\
    gameOver s' = true /\ running s' = false /\
    snake s' = snake s /\ score s' = score s /\ food s' = food s.
Proof.
  intros Hr Hp Hg Hs Hin. exists (crashed s).
  assert (Hi : idle s = false) by (unfold idle; by rewrite Hr, Hp, Hg).
  by rewrite (update_crash fuel s h t Hi Hs (or_intror Hin)).
Qed.

(** From a reachable state neither a tick nor a frame ever throws: the
    snake always has a head to read. *)
Theorem never_throws (s : State) :
  reachable s ->
  (forall fuel, update fuel s <> Raise) /\
  (forall fuel time, gameLoop fuel time s <> Raise).
Proof.
  intros Hr. pose proof (reachable_snake_length _ _ Hr) as Hlen.
  assert (Hne : snake s <> []) by (destruct (snake s); simpl in *; [lia | done]).
  split.
  - intros fuel. by apply update_not_raise.
  - intros fuel time. unfold gameLoop.
    destruct (running s); simpl; [|done]. destruct (paused s); [done|].
    by apply drain_not_raise.
Qed.

(** On a grid of at least six columns and one row, with draws in [[0,1)],
    the score of a reachable state is at most the number of cells less
    four: the snake and the food leave no room for more. *)
Theorem score_bounded (s : State) :
  6 <= COLS -> 1 <= ROWS -> unit_draws -> reachable s ->
  score s + 4 <= COLS * ROWS.
Proof.
  intros HC HR Hu Hr.
  destruct (inv_food _ (reachable_game_inv _ _ Hr)) as (c & Hc & Hfree).
  pose proof (reachable_well_formed _ _ Hr) as [Hnd Hlen].
  assert (Hcap : Z.of_nat (length (c :: snake s)) <= COLS * ROWS).
  { apply grid_capacity; [lia | lia | by constructor |].
    constructor; [|by apply (reachable_in_grid (fun _ _ => True))].
    apply (reachable_food_in_grid (fun _ _ => True) s); auto; lia. }
  simpl length in Hcap. lia.
Qed.

(** From a reachable state a frame returns when the draws are fair, fewer
    than [n] ticks are due and the snake, grown by [n], leaves a cell
    free. *)
Theorem reachable_frame_returns (n : nat) (time : Q) (s : State) :
  0 < COLS -> fair_draws 0 -> reachable s ->
  (accumulator s + (time - lastTime s) / 1000 < ticks n * step)%Q ->
  Z.of_nat (length (snake s)) + Z.of_nat n < COLS * ROWS ->
  exists fuel r, gameLoop fuel time s = Done r.
Proof.
  intros HC Hf Hr Hacc Hlen. apply (gameLoop_returns n); try done.
  - pose proof (reachable_snake_length _ _ Hr). destruct (snake s); simpl in *; [lia | done].
  - by apply (reachable_fair (fun _ _ => True)).
Qed.

End Game_properties.

(** * Properties of the direction intents and of the input handlers *)

Lemma intents_app (l1 l2 : list string) (s : State) :
  intents (l1 ++ l2) s = intents l2 (intents l1 s).
Proof. unfold intents. apply foldl_app. Qed.

Lemma intents_only_nextDir (actions : list string) (s : State) :
  intents actions s = set_nextDir (nextDir (intents actions s)) s.
Proof.
  revert s. induction actions as [|a l IH]; intros s.
  - by destruct s.
  - change (intents (a :: l) s) with (intents l (setDirection a s)).
    rewrite IH at 1. unfold setDirection.
    destruct (dir_map !! a) as [nd|]; [|done]. by destruct (_ && _).
Qed.

(** The actions the handlers pass to [setDirection] are keys of its map:
    every key [handleKeyDown] binds to something other than pause or
    restart is bound to one, and every swipe is one. *)
Theorem handlers_pass_directions :
  (forall (k action : string) (prevented : bool),
     key_binding k = Some (action, prevented) ->
     action = "pause" \/ action = "restart" \/ is_Some (dir_map !! action)) /\
  (forall dx dy : Q, is_Some (dir_map !! swipe dx dy)).
Proof.
  split.
  - intros k action prevented. unfold key_binding.
    repeat case_match; intros [= <- <-]; auto; right; right; by eexists.
  - intros dx dy. unfold swipe. repeat case_match; by eexists.
Qed.

(** An intent that is not the reverse of the current direction replaces
    whatever was queued before it, and the intents change nothing else of
    the state: of the intents between two ticks, the last valid one is the
    one the tick commits. *)
Theorem last_intent_wins (s : State) (before : list string) (action : string) (nd : Cell) :
  dir_map !! action = Some nd -> ~ opposite nd (dir s) ->
  intents (before ++ [action]) s = set_nextDir nd s.
Proof.
  intros Hmap Hrev. rewrite intents_app. rewrite (intents_only_nextDir before s).
  unfold intents. simpl. unfold setDirection. rewrite Hmap. fields.
  destruct (_ && _) eqn:Htest; [|done].
  apply andb_true_iff in Htest as [Hx Hy]. apply Z.eqb_eq in Hx, Hy. by destruct Hrev.
Qed.

Section Input.

Context {host : Host}.

(** Whatever key is pressed in a reachable state, the state [handleKeyDown]
    returns is reachable: the invariants of the game hold under keyboard
    input.  A key that is not bound changes nothing and is not prevented. *)
Theorem handleKeyDown_reachable (fuel : nat) (now : Q) (k : string)
    (s s' : State) (prevented : bool) :
  reachable s -> handleKeyDown fuel now k s = Done (s', prevented) ->
  reachable s' /\ (key_binding k = None -> s' = s /\ prevented = false).
Proof.
  intros Hr. unfold handleKeyDown.
  destruct (key_binding k) as [[action p]|].
  2:{ intros [= <- <-]. auto. }
  destruct (String.eqb action "pause").
  { intros [= <- <-]. split; [by apply reach_togglePause | done]. }
  destruct (String.eqb action "restart").
  { destruct (restartGame fuel now s) as [s1| |] eqn:E; simpl; try done.
    intros [= <- <-]. split; [by apply (reach_restartGame _ fuel now s) | done]. }
  intros [= <- <-]. split; [by apply reach_setDirection | done].
Qed.

End Input.

(** ** Touch gestures *)

Lemma Qltb_lt (a b : Q) : Qltb a b = true <-> (a < b)%Q.
Proof.
  unfold Qltb. rewrite negb_true_iff. split.
  - intros H. apply Qnot_le_lt. intros Hle. apply Qle_bool_iff in Hle. congruence.
  - intros H. destruct (Qle_bool b a) eqn:E; [|done].
    apply Qle_bool_iff in E. lra.
Qed.

Lemma Qltb_ge (a b : Q) : Qltb a b = false <-> (b <= a)%Q.
Proof.
  unfold Qltb. rewrite negb_false_iff. apply Qle_bool_iff.
Qed.

(** The vector of a swipe points along the displacement: its product with
    the displacement is the larger of the two distances covered, the
    vertical one when they are equal. *)
Theorem swipe_follows_displacement (dx dy : Q) (nd : Cell) :
  dir_map !! swipe dx dy = Some nd ->
  (inject_Z (cx nd) * dx + inject_Z (cy nd) * dy == Qmax (Qabs dx) (Qabs dy))%Q /\
  ((Qabs dx <= Qabs dy)%Q -> cx nd = 0).
Proof.
  unfold swipe. destruct (Qltb (Qabs dy) (Qabs dx)) eqn:Haxis.
  - apply Qltb_lt in Haxis.
    assert (Hmax : (Qmax (Qabs dx) (Qabs dy) == Qabs dx)%Q) by (apply Q.max_l; lra).
    destruct (Qltb 0 dx) eqn:Hsign.
    + apply Qltb_lt in Hsign. intros Hm. apply dir_map_lookup in Hm.
      destruct Hm as [[? _]|[[? _]|[[? _]|[_ ->]]]]; try done.
      split; [|lra]. rewrite Hmax, Qabs_pos by lra. simpl. ring.
    + apply Qltb_ge in Hsign. intros Hm. apply dir_map_lookup in Hm.
      destruct Hm as [[? _]|[[? _]|[[_ ->]|[? _]]]]; try done.
      split; [|lra]. rewrite Hmax, Qabs_neg by lra. simpl. ring.
  - apply Qltb_ge in Haxis.
    assert (Hmax : (Qmax (Qabs dx) (Qabs dy) == Qabs dy)%Q) by (by apply Q.max_r).
    destruct (Qltb 0 dy) eqn:Hsign.
    + apply Qltb_lt in Hsign. intros Hm. apply dir_map_lookup in Hm.
      destruct Hm as [[? _]|[[_ ->]|[[? _]|[? _]]]]; try done.
      split; [|done]. rewrite Hmax, Qabs_pos by lra. simpl. ring.
    + apply Qltb_ge in Hsign. intros Hm. apply dir_map_lookup in Hm.
      destruct Hm as [[_ ->]|[[? _]|[[? _]|[? _]]]]; try done.
      split; [|done]. rewrite Hmax, Qabs_neg by lra. simpl. ring.
Qed.

(** A touch that ends with no touch pending, after a second or more, or
    with neither distance above 30 leaves the game as it was; in particular
    a tap, which ends where it started, is no swipe. *)
Theorem touchend_ignored (x y : Q) (now_ms : Z) (p : Page) :
  (touchStart p = None \/
   exists t0 : Touch, touchStart p = Some t0 /\
     (1000 <= now_ms - touch_time t0 \/
      ((Qabs (x - touch_x t0) <= 30)%Q /\ (Qabs (y - touch_y t0) <= 30)%Q))) ->
  game (touchend x y now_ms p) = game p /\
  (forall x0 y0 t0 t1, game (touchend x0 y0 t1 (touchstart x0 y0 t0 p)) = game p).
Proof.
  intros H. split.
  - unfold touchend. destruct H as [-> | (t0 & -> & H)]; [done|]. cbn [touchStart game touch_x touch_y touch_time].
    destruct H as [Hslow | [Hx Hy]].
    + by rewrite (proj2 (Z.ltb_ge _ _) Hslow).
    + rewrite (proj2 (Qltb_ge _ _)), andb_false_r; [done|]. by apply Q.max_lub.
  - intros x0 y0 t0 t1. unfold touchend, touchstart. cbn [touchStart game touch_x touch_y touch_time].
    rewrite (proj2 (Qltb_ge _ _)), andb_false_r; [done|].
    apply Q.max_lub; apply Qabs_Qle_condition; lra.
Qed.

Section Touch.

Context {host : Host}.

(** A touch that ends always clears the pending touch, and the game it
    leaves is reachable when the game before was; a touch lifted within a
    second and more than 30 away along some axis passes its swipe to
    [setDirection]. *)
Theorem touchend_effect (x y : Q) (now_ms : Z) (p : Page) :
  touchStart (touchend x y now_ms p) = None /\
  (reachable (game p) -> reachable (game (touchend x y now_ms p))) /\
  (forall t0 : Touch, touchStart p = Some t0 ->
     now_ms - touch_time t0 < 1000 ->
     (30 < Qmax (Qabs (x - touch_x t0)) (Qabs (y - touch_y t0)))%Q ->
     game (touchend x y now_ms p) =
     setDirection (swipe (x - touch_x t0) (y - touch_y t0)) (game p)).
Proof.
  unfold touchend. destruct (touchStart p) as [t0|] eqn:Ht; [|done].
  split_and!; try done.
  - intros Hr. cbn [game]. destruct (_ && _); [by apply reach_setDirection | done].
  - intros t [= <-] Hfast Hfar. cbn [game].
    by rewrite (proj2 (Z.ltb_lt _ _) Hfast), (proj2 (Qltb_lt _ _) Hfar).
Qed.

End Touch.

(** * The further properties at work on the example states *)

Lemma demo_over_reachable : @reachable demo demo_over.
Proof.
  apply (reach_gameLoop _ 10%nat 1500%Q demo_init demo_over 4%nat).
  - apply demo_init_reachable.
  - exact I.
  - vm_compute. reflexivity.
Qed.

Lemma demo_turn_reachable : @reachable demo demo_turn.
Proof.
  assert (E : setDirection "down" demo_init = demo_turn) by (vm_compute; reflexivity).
  rewrite <- E. apply reach_setDirection, demo_init_reachable.
Qed.

Lemma restartGame_resets_witness :
  @restartGame demo 1 5000 demo_over = Done demo_restarted /\
  score demo_restarted = 0 /\ running demo_restarted = true /\
  gameOver demo_restarted = false /\ accumulator demo_restarted = 0%Q /\
  lastTime demo_restarted = 5000%Q /\
  (exists c : Cell, food demo_restarted = Some c /\ c ∉ snake demo_restarted) /\
  @restartGame demo 1 5000 (set_score 7 demo_over) = Done demo_restarted.
Proof.
  assert (E : @restartGame demo 1 5000 demo_over = Done demo_restarted)
    by (vm_compute; reflexivity).
  destruct (@restartGame_resets demo 1%nat 5000%Q demo_over demo_restarted E)
    as (_ & _ & _ & H4 & H5 & _ & H7 & H8 & H9 & H10 & H11).
  exact (conj E (conj H4 (conj H5 (conj H7 (conj H8 (conj H9 (conj H10
          (H11 (set_score 7 demo_over) eq_refl)))))))).
Defined.

Lemma snake_in_grid_witness :
  6 <= @COLS demo /\ 1 <= @ROWS demo /\ @reachable demo demo_fed /\
  Forall (@in_grid demo) (snake demo_fed).
Proof.
  assert (HC : 6 <= @COLS demo) by (simpl; lia).
  assert (HR : 1 <= @ROWS demo) by (simpl; lia).
  exact (conj HC (conj HR (conj demo_fed_reachable
          (@snake_in_grid demo demo_fed HC HR demo_fed_reachable)))).
Defined.

Lemma food_off_snake_witness :
  @reachable demo demo_fed /\
  exists c : Cell, food demo_fed = Some c /\ (c ∉ snake demo_fed) /\ @in_grid demo c.
Proof.
  destruct (@food_off_snake demo demo_fed demo_fed_reachable) as (c & Hc & Hfree & Hin).
  split; [apply demo_fed_reachable|]. exists c. split_and!; [exact Hc | exact Hfree |].
  apply Hin; [exact (scan_unit 6 6 21) | reflexivity | reflexivity].
Defined.

Lemma directions_unit_witness :
  @reachable demo demo_turn /\
  unit_vector (dir demo_turn) /\ unit_vector (nextDir demo_turn) /\
  (opposite (nextDir demo_turn) (dir demo_turn) -> False).
Proof.
  exact (conj demo_turn_reachable (@directions_unit demo demo_turn demo_turn_reachable)).
Defined.

Lemma snake_connected_witness :
  @reachable demo demo_fed /\
  snake demo_fed !! 0%nat = Some (mkCell 3 3) /\
  snake demo_fed !! 1%nat = Some (mkCell 2 3) /\
  adjacent (mkCell 3 3) (mkCell 2 3).
Proof.
  exact (conj demo_fed_reachable (conj eq_refl (conj eq_refl
          (@snake_connected demo demo_fed 0%nat (mkCell 3 3) (mkCell 2 3)
             demo_fed_reachable eq_refl eq_refl)))).
Defined.

Lemma never_into_neck_witness :
  @reachable demo demo_turn /\ gameOver demo_turn = false /\
  snake demo_turn = mkCell 2 3 :: mkCell 1 3 :: [mkCell 0 3] /\
  (move (mkCell 2 3) (nextDir demo_turn) = mkCell 1 3 -> False).
Proof.
  exact (conj demo_turn_reachable (conj eq_refl (conj eq_refl
          (@never_into_neck demo demo_turn (mkCell 2 3) (mkCell 1 3) [mkCell 0 3]
             demo_turn_reachable eq_refl eq_refl)))).
Defined.

Lemma flags_consistent_witness :
  @reachable demo demo_over /\
  running demo_over = negb (gameOver demo_over) /\
  (gameOver demo_over = true -> paused demo_over = false).
Proof.
  exact (conj demo_over_reachable (@flags_consistent demo demo_over demo_over_reachable)).
Defined.

Lemma gameOver_terminal_witness :
  @reachable demo demo_over /\ gameOver demo_over = true /\
  @update demo 5 demo_over = Done demo_over /\
  @gameLoop demo 5 9000 demo_over = Done (demo_over, O) /\
  togglePause 9000 demo_over = demo_over /\
  gameOver (setDirection "up" demo_over) = true.
Proof.
  destruct (@gameOver_terminal demo demo_over demo_over_reachable eq_refl)
    as (H1 & H2 & H3 & H4).
  exact (conj demo_over_reachable (conj eq_refl (conj (H1 5%nat)
          (conj (H2 5%nat 9000%Q) (conj (H3 9000%Q) (H4 "up")))))).
Defined.

Lemma update_moves_witness :
  running demo_turn = true /\ paused demo_turn = false /\ gameOver demo_turn = false /\
  snake demo_turn = mkCell 2 3 :: [mkCell 1 3; mkCell 0 3] /\
  @in_grid demo (move (mkCell 2 3) (nextDir demo_turn)) /\
  (move (mkCell 2 3) (nextDir demo_turn) ∉ snake demo_turn) /\
  food demo_turn <> Some (move (mkCell 2 3) (nextDir demo_turn)) /\
  exists s', @update demo 0 demo_turn = Done s' /\
    snake s' = move (mkCell 2 3) (nextDir demo_turn) :: removelast (snake demo_turn) /\
    length (snake s') = length (snake demo_turn) /\
    score s' = score demo_turn /\ food s' = food demo_turn /\
    running s' = true /\ gameOver s' = false.
Proof.
  assert (Hin : @in_grid demo (move (mkCell 2 3) (nextDir demo_turn)))
    by (unfold in_grid; simpl; lia).
  assert (Hfree : move (mkCell 2 3) (nextDir demo_turn) ∉ snake demo_turn).
  { change (mkCell 2 4 ∉ [mkCell 2 3; mkCell 1 3; mkCell 0 3]).
    rewrite !elem_of_cons, elem_of_nil. intros [H|[H|[H|H]]]; done. }
  assert (Hfood : food demo_turn <> Some (move (mkCell 2 3) (nextDir demo_turn)))
    by discriminate.
  exact (conj eq_refl (conj eq_refl (conj eq_refl (conj eq_refl (conj Hin (conj Hfree
          (conj Hfood
             (@update_moves demo 0%nat demo_turn (mkCell 2 3) [mkCell 1 3; mkCell 0 3]
                eq_refl eq_refl eq_refl eq_refl Hin Hfree Hfood)))))))).
Defined.

Lemma update_self_collision_witness :
  running demo_knot = true /\ paused demo_knot = false /\ gameOver demo_knot = false /\
  snake demo_knot = mkCell 2 2 :: [mkCell 3 2; mkCell 3 3; mkCell 2 3; mkCell 1 3] /\
  move (mkCell 2 2) (nextDir demo_knot) ∈ snake demo_knot /\
  exists s', @update demo 0 demo_knot = Done s' /\
    gameOver s' = true /\ running s' = false /\
    snake s' = snake demo_knot /\ score s' = score demo_knot /\ food s' = food demo_knot.
Proof.
  assert (Hin : move (mkCell 2 2) (nextDir demo_knot) ∈ snake demo_knot).
  { change (mkCell 2 3 ∈ [mkCell 2 2; mkCell 3 2; mkCell 3 3; mkCell 2 3; mkCell 1 3]).
    rewrite !elem_of_cons. auto. }
  exact (conj eq_refl (conj eq_refl (conj eq_refl (conj eq_refl (conj Hin
          (@update_self_collision demo 0%nat demo_knot (mkCell 2 2)
             [mkCell 3 2; mkCell 3 3; mkCell 2 3; mkCell 1 3]
             eq_refl eq_refl eq_refl eq_refl Hin)))))).
Defined.

Lemma never_throws_witness :
  @reachable demo demo_fed /\
  (@update demo 0 demo_fed = Raise -> False) /\
  (@gameLoop demo 0 2000 demo_fed = Raise -> False).
Proof.
  destruct (@never_throws demo demo_fed demo_fed_reachable) as [H1 H2].
  exact (conj demo_fed_reachable (conj (H1 0%nat) (H2 0%nat 2000%Q))).
Defined.

Lemma score_bounded_witness :
  6 <= @COLS demo /\ 1 <= @ROWS demo /\ @unit_draws demo /\ @reachable demo demo_over /\
  score demo_over + 4 <= @COLS demo * @ROWS demo.
Proof.
  assert (HC : 6 <= @COLS demo) by (simpl; lia).
  assert (HR : 1 <= @ROWS demo) by (simpl; lia).
  exact (conj HC (conj HR (conj (scan_unit 6 6 21) (conj demo_over_reachable
          (@score_bounded demo demo_over HC HR (scan_unit 6 6 21) demo_over_reachable))))).
Defined.

Lemma reachable_frame_returns_witness :
  0 < @COLS demo /\ @fair_draws demo 0 /\ @reachable demo demo_fed /\
  (accumulator demo_fed + (1260 - lastTime demo_fed) / 1000 < ticks 2 * step)%Q /\
  Z.of_nat (length (snake demo_fed)) + Z.of_nat 2 < @COLS demo * @ROWS demo /\
  exists fuel r, @gameLoop demo fuel 1260 demo_fed = Done r.
Proof.
  assert (HC : 0 < @COLS demo) by reflexivity.
  assert (Hacc : (accumulator demo_fed + (1260 - lastTime demo_fed) / 1000
                  < ticks 2 * step)%Q) by reflexivity.
  assert (Hlen : Z.of_nat (length (snake demo_fed)) + Z.of_nat 2 < @COLS demo * @ROWS demo)
    by reflexivity.
  exact (conj HC (conj (scan_fair 6 6 21 0) (conj demo_fed_reachable (conj Hacc (conj Hlen
          (@reachable_frame_returns demo 2%nat 1260%Q demo_fed HC (scan_fair 6 6 21 0)
             demo_fed_reachable Hacc Hlen)))))).
Defined.

Lemma handlers_pass_directions_witness :
  key_binding "W" = Some ("up", true) /\
  ("up" = "pause" \/ "up" = "restart" \/ is_Some (dir_map !! "up")) /\
  is_Some (dir_map !! swipe 40 (-10)).
Proof.
  destruct handlers_pass_directions as [Hkey Hswipe].
  exact (conj eq_refl (conj (Hkey "W" "up" true eq_refl) (Hswipe 40%Q (-10)%Q))).
Defined.

Lemma last_intent_wins_witness :
  dir_map !! "down" = Some (mkCell 0 1) /\
  (opposite (mkCell 0 1) (dir demo_init) -> False) /\
  intents (["up"; "left"] ++ ["down"]) demo_init = set_nextDir (mkCell 0 1) demo_init.
Proof.
  assert (Hrev : ~ opposite (mkCell 0 1) (dir demo_init)).
  { intros [Hx _]. simpl in Hx. lia. }
  exact (conj eq_refl (conj Hrev
          (last_intent_wins demo_init ["up"; "left"] "down" (mkCell 0 1) eq_refl Hrev))).
Defined.

Lemma handleKeyDown_reachable_witness :
  @reachable demo demo_fed /\
  @handleKeyDown demo 1 2000 "ArrowDown" demo_fed
  = Done (setDirection "down" demo_fed, true) /\
  @reachable demo (setDirection "down" demo_fed) /\
  (key_binding "ArrowDown" = None ->
   setDirection "down" demo_fed = demo_fed /\ true = false).
Proof.
  assert (E : @handleKeyDown demo 1 2000 "ArrowDown" demo_fed
              = Done (setDirection "down" demo_fed, true)) by reflexivity.
  exact (conj demo_fed_reachable (conj E
          (@handleKeyDown_reachable demo 1%nat 2000%Q "ArrowDown" demo_fed
             (setDirection "down" demo_fed) true demo_fed_reachable E))).
Defined.

Lemma swipe_follows_displacement_witness :
  dir_map !! swipe (-5) 60 = Some (mkCell 0 1) /\
  (inject_Z (cx (mkCell 0 1)) * (-5) + inject_Z (cy (mkCell 0 1)) * 60
   == Qmax (Qabs (-5)) (Qabs 60))%Q /\
  ((Qabs (-5) <= Qabs 60)%Q -> cx (mkCell 0 1) = 0).
Proof.
  exact (conj eq_refl
          (swipe_follows_displacement (-5)%Q 60%Q (mkCell 0 1) eq_refl)).
Defined.

Lemma touchend_ignored_witness :
  (touchStart demo_page = None \/
   exists t0 : Touch, touchStart demo_page = Some t0 /\
     (1000 <= 1300 - touch_time t0 \/
      ((Qabs (45 - touch_x t0) <= 30)%Q /\ (Qabs (140 - touch_y t0) <= 30)%Q))) /\
  game (touchend 45 140 1300 demo_page) = game demo_page /\
  game (touchend 7 9 250 (touchstart 7 9 200 demo_page)) = game demo_page.
Proof.
  assert (H : touchStart demo_page = None \/
              exists t0 : Touch, touchStart demo_page = Some t0 /\
                (1000 <= 1300 - touch_time t0 \/
                 ((Qabs (45 - touch_x t0) <= 30)%Q /\ (Qabs (140 - touch_y t0) <= 30)%Q))).
  { right. exists (mkTouch 50 80 100). split; [reflexivity|]. left. simpl. lia. }
  destruct (touchend_ignored 45 140 1300 demo_page H) as [H1 H2].
  exact (conj H (conj H1 (H2 7%Q 9%Q 200 250))).
Defined.

Lemma touchend_effect_witness :
  touchStart (touchend 45 140 600 demo_page) = None /\
  @reachable demo (game (touchend 45 140 600 demo_page)) /\
  touchStart demo_page = Some (mkTouch 50 80 100) /\
  600 - 100 < 1000 /\ (30 < Qmax (Qabs (45 - 50)) (Qabs (140 - 80)))%Q /\
  game (touchend 45 140 600 demo_page)
  = setDirection (swipe (45 - 50) (140 - 80)) (game demo_page).
Proof.
  destruct (@touchend_effect demo 45 140 600 demo_page) as (H1 & H2 & H3).
  assert (Hfast : 600 - 100 < 1000) by lia.
  assert (Hfar : (30 < Qmax (Qabs (45 - 50)) (Qabs (140 - 80)))%Q) by reflexivity.
  exact (conj H1 (conj (H2 demo_init_reachable) (conj eq_refl (conj Hfast (conj Hfar
          (H3 (mkTouch 50 80 100) eq_refl Hfast Hfar)))))).
Defined.

(** * Properties of drawing *)

Lemma filled_app (a b : list Paint) : filled (a ++ b) = filled a ++ filled b.
Proof.
  induction a as [|c a IH]; [done|]. destruct c; simpl; by rewrite ?IH.
Qed.

Lemma filled_draw_snake (i : nat) (l : list Cell) :
  filled (draw_snake i l)
  = (fun c => (cx c * CELL + 1, cy c * CELL + 1, CELL - 2, CELL - 2)) <$> l.
Proof.
  revert i. induction l as [|c l IH]; intros i; [done|].
  simpl. by rewrite IH.
Qed.

Lemma filled_draw (width height : Z) (s : State) :
  filled (draw width height s)
  = (0, 0, width, height)
    :: ((fun c => (cx c * CELL + 1, cy c * CELL + 1, CELL - 2, CELL - 2))
          <$> (match food s with Some f => [f] | None => [] end ++ snake s)).
Proof.
  unfold draw. rewrite !filled_app, filled_draw_snake, fmap_app.
  destruct (food s), (paused s), (gameOver s); simpl; by rewrite app_nil_r.
Qed.

Lemma written_app (a b : list Paint) : written (a ++ b) = written a ++ written b.
Proof.
  induction a as [|c a IH]; [done|]. destruct c; simpl; by rewrite ?IH.
Qed.

Lemma written_draw_snake (i : nat) (l : list Cell) : written (draw_snake i l) = [].
Proof. revert i. induction l as [|c l IH]; intros i; [done|]. simpl. apply IH. Qed.

Lemma written_draw (width height : Z) (s : State) :
  written (draw width height s)
  = ("Score: " +:+ pretty (score s))
    :: (if paused s then ["Paused"] else [])
    ++ (if gameOver s then ["Game Over"; "Press Enter to restart"] else []).
Proof.
  unfold draw. rewrite !written_app, written_draw_snake.
  by destruct (food s), (paused s), (gameOver s).
Qed.

Lemma squares_apart (a b : Cell) :
  a <> b ->
  disjoint_rects (cx a * CELL + 1, cy a * CELL + 1, CELL - 2, CELL - 2)
                 (cx b * CELL + 1, cy b * CELL + 1, CELL - 2, CELL - 2).
Proof.
  destruct a as [x1 y1], b as [x2 y2]. intros Hne. unfold disjoint_rects, CELL. simpl.
  destruct (decide (x1 = x2)) as [->|Hx].
  - assert (y1 <> y2) by congruence. lia.
  - lia.
Qed.

Section Drawing.

Context {host : Host}.

(** In every reachable state the squares [draw] fills for the food and for
    the segments of the snake are disjoint from one another: nothing of the
    game is painted over. *)
Theorem draw_squares_disjoint (width height : Z) (s : State) (i j : nat)
    (r1 r2 : Z * Z * Z * Z) :
  reachable s -> i <> j ->
  tail (filled (draw width height s)) !! i = Some r1 ->
  tail (filled (draw width height s)) !! j = Some r2 ->
  disjoint_rects r1 r2.
Proof.
  intros Hr Hij. rewrite filled_draw. simpl tail. rewrite !list_lookup_fmap.
  destruct (inv_food _ (reachable_game_inv _ _ Hr)) as (c & -> & Hfree).
  pose proof (reachable_well_formed _ _ Hr) as [Hnd _].
  assert (Hall : NoDup ([c] ++ snake s)) by (simpl; by constructor).
  intros H1 H2.
  destruct (([c] ++ snake s) !! i) as [a|] eqn:Ha; [|done].
  destruct (([c] ++ snake s) !! j) as [b|] eqn:Hb; [|done].
  injection H1 as <-. injection H2 as <-. apply squares_apart.
  intros ->. apply Hij. by apply (NoDup_lookup _ i j b Hall).
Qed.

(** In every reachable state the two overlays are never drawn together:
    "Paused" is written exactly when the game is paused, "Game Over" exactly
    when it is over, and a game that is over is not paused. *)
Theorem draw_overlays (width height : Z) (s : State) :
  ("Paused" ∈ written (draw width height s) <-> paused s = true) /\
  ("Game Over" ∈ written (draw width height s) <-> gameOver s = true) /\
  (reachable s ->
   ~ ("Paused" ∈ written (draw width height s) /\
      "Game Over" ∈ written (draw width height s))).
Proof.
  assert (HP : "Paused" ∈ written (draw width height s) <-> paused s = true).
  { rewrite written_draw.
    destruct (paused s), (gameOver s); simpl;
      rewrite ?elem_of_cons, ?elem_of_nil; split; auto;
      intros H; repeat destruct H as [H|H]; done. }
  assert (HG : "Game Over" ∈ written (draw width height s) <-> gameOver s = true).
  { rewrite written_draw.
    destruct (paused s), (gameOver s); simpl;
      rewrite ?elem_of_cons, ?elem_of_nil; split; auto;
      intros H; repeat destruct H as [H|H]; done. }
  split_and!; [done | done |].
  intros Hr [H1 H2]. apply HP in H1. apply HG in H2.
  destruct (reachable_game_inv _ _ Hr) as [_ _ _ _ _ _ Hpause _ _ _].
  rewrite (Hpause H2) in H1. done.
Qed.

End Drawing.

(** On a canvas at least 120 pixels wide and 20 high, with draws in
    [[0,1)], every rectangle [draw] fills in a reachable state lies on the
    canvas. *)
Theorem draw_on_canvas (width height : Z) (draws : nat -> Q) (s : State) :
  120 <= width -> 20 <= height ->
  @unit_draws (canvas_host width height draws) ->
  @reachable (canvas_host width height draws) s ->
  Forall (on_canvas width height) (filled (draw width height s)).
Proof.
  intros Hw Hh Hu Hr. rewrite filled_draw.
  assert (HC : 6 <= @COLS (canvas_host width height draws)).
  { simpl. apply Z.div_le_lower_bound; unfold CELL; lia. }
  assert (HR : 1 <= @ROWS (canvas_host width height draws)).
  { simpl. apply Z.div_le_lower_bound; unfold CELL; lia. }
  assert (Hsq : forall c, @in_grid (canvas_host width height draws) c ->
            on_canvas width height (cx c * CELL + 1, cy c * CELL + 1, CELL - 2, CELL - 2)).
  { intros [x y] [[Hx0 Hx1] [Hy0 Hy1]]. simpl in *. unfold on_canvas, CELL in *.
    pose proof (Z.mul_div_le width 20). pose proof (Z.mul_div_le height 20). lia. }
  constructor; [unfold on_canvas; lia|].
  apply Forall_fmap, Forall_app. split.
  - destruct (food s) as [f|] eqn:Hf; [|by constructor].
    constructor; [|by constructor]. apply Hsq.
    apply (reachable_food_in_grid (fun _ _ => True) s); auto; lia.
  - pose proof (reachable_in_grid (fun _ _ => True) s HC HR Hr) as Hin.
    eapply Forall_impl; [exact Hin | exact Hsq].
Qed.

(** A game on a canvas starts with its snake inside the grid exactly when
    the canvas is at least 120 pixels wide and 20 high. *)
Theorem canvas_size_needed (width height : Z) (draws : nat -> Q)
    (fuel : nat) (now : Q) (s s' : State) :
  0 <= width -> 0 <= height ->
  @initGame (canvas_host width height draws) fuel now s = Done s' ->
  (Forall (@in_grid (canvas_host width height draws)) (snake s')
   <-> 120 <= width /\ 20 <= height).
Proof.
  intros Hw Hh E.
  assert (HC : 0 <= @COLS (canvas_host width height draws))
    by (simpl; apply Z.div_pos; unfold CELL; lia).
  assert (HR : 0 <= @ROWS (canvas_host width height draws))
    by (simpl; apply Z.div_pos; unfold CELL; lia).
  rewrite (initGame_snake_in_grid_aux _ _ _ _ HC HR E). simpl. unfold CELL.
  pose proof (Z.div_mod width 20). pose proof (Z.mod_pos_bound width 20).
  pose proof (Z.div_mod height 20). pose proof (Z.mod_pos_bound height 20).
  lia.
Qed.

(** The keys of the set [occupied] of [placeFood] tell the cells apart: two
    cells with the same key are the same cell, and the set has the key of a
    cell exactly when the cell is a segment of the snake. *)
Theorem occupied_keys_faithful (c d : Cell) (l : list Cell) :
  (key c = key d -> c = d) /\
  (bool_decide (key c ∈ (list_to_set (map key l) : gset string)) = true <-> c ∈ l).
Proof.
  split; [apply key_inj|]. by rewrite bool_decide_eq_true, occupied_spec.
Qed.

Lemma occupied_keys_faithful_witness :
  key (mkCell 1 23) <> key (mkCell 12 3) /\
  bool_decide (key (mkCell 1 3) ∈ (list_to_set (map key (snake demo_init)) : gset string))
  = true.
Proof.
  destruct (occupied_keys_faithful (mkCell 1 23) (mkCell 12 3) []) as [Hinj _].
  destruct (occupied_keys_faithful (mkCell 1 3) (mkCell 1 3) (snake demo_init)) as [_ Hin].
  split.
  - intros E. apply Hinj in E. discriminate.
  - apply Hin. simpl. rewrite !elem_of_cons. auto.
Defined.

Lemma draw_squares_disjoint_witness :
  @reachable demo demo_fed /\
  tail (filled (draw 120 120 demo_fed)) !! 0%nat = Some (81, 61, 18, 18) /\
  tail (filled (draw 120 120 demo_fed)) !! 1%nat = Some (61, 61, 18, 18) /\
  disjoint_rects (81, 61, 18, 18) (61, 61, 18, 18).
Proof.
  assert (Hne : 0%nat <> 1%nat) by lia.
  exact (conj demo_fed_reachable (conj eq_refl (conj eq_refl
          (@draw_squares_disjoint demo 120 120 demo_fed 0%nat 1%nat
             (81, 61, 18, 18) (61, 61, 18, 18) demo_fed_reachable Hne eq_refl eq_refl)))).
Defined.

Lemma draw_overlays_witness :
  @reachable demo demo_over /\ gameOver demo_over = true /\
  "Game Over" ∈ written (draw 120 120 demo_over) /\
  ("Paused" ∈ written (draw 120 120 demo_over) -> False).
Proof.
  destruct (@draw_overlays demo 120 120 demo_over) as (HP & HG & Hboth).
  assert (Hover : "Game Over" ∈ written (draw 120 120 demo_over)) by (by apply HG).
  refine (conj demo_over_reachable (conj eq_refl (conj Hover _))).
  intros Hp. exact (Hboth demo_over_reachable (conj Hp Hover)).
Defined.

Lemma draw_on_canvas_witness :
  120 <= 120 /\ 20 <= 120 /\
  @unit_draws (canvas_host 120 120 (scan 6 6 21)) /\
  @reachable (canvas_host 120 120 (scan 6 6 21)) demo_fed /\
  Forall (on_canvas 120 120) (filled (draw 120 120 demo_fed)).
Proof.
  assert (Hw : 120 <= 120) by lia. assert (Hh : 20 <= 120) by lia.
  exact (conj Hw (conj Hh (conj (scan_unit 6 6 21) (conj demo_fed_reachable
          (draw_on_canvas 120 120 (scan 6 6 21) demo_fed Hw Hh
             (scan_unit 6 6 21) demo_fed_reachable))))).
Defined.

Lemma canvas_size_needed_witness :
  0 <= 100 /\
  @initGame (canvas_host 100 100 (scan 5 5 0)) 1 0 state0 = Done demo_narrow /\
  snake demo_narrow = [mkCell 1 2; mkCell 0 2; mkCell (-1) 2] /\
  (Forall (@in_grid (canvas_host 100 100 (scan 5 5 0))) (snake demo_narrow) -> False).
Proof.
  assert (Hw : 0 <= 100) by lia.
  assert (E : @initGame (canvas_host 100 100 (scan 5 5 0)) 1 0 state0 = Done demo_narrow)
    by (vm_compute; reflexivity).
  refine (conj Hw (conj E (conj eq_refl _))).
  intros Hin.
  apply (canvas_size_needed 100 100 (scan 5 5 0) 1%nat 0%Q state0 demo_narrow Hw Hw E) in Hin.
  lia.
Defined.
